(** * The reboot-mode core library (drivers/power/reset/reboot-mode.c)

    A shallow embedding of the name -> magic registry of the reboot-mode
    driver core: the lookup [get_reboot_mode_magic], the notifier callback
    [reboot_mode_notify] and the table construction [reboot_mode_register].

    Conventions.
    - A [const char *] is modelled by the characters that precede its
      terminator, as a [string]; [cstr] says that none of them is NUL.
    - The stack array [char cmd_[110]] is a list of 110 cells; a cell is
      [None] while its content is indeterminate.  A store outside the array
      and a load of an indeterminate or outside cell are faults, modelled by
      [None] in the result of the function that performs them.
    - The slab allocator is a set of live blocks together with the list of
      upcoming allocation failures; freeing a block that is not live is a
      fault. *)

From Stdlib Require Import ZArith Lia Ascii String.
From stdpp Require Import base option list strings gmap.

Local Open Scope Z_scope.

#[local] Set Warnings "-clear-no-such-hyp".

(** ** Characters, strings and character arrays *)

Definition NUL : ascii := Ascii.zero.

Definition chars (s : string) : list ascii := list_ascii_of_string s.

(** [s] is the content of a NUL-terminated string. *)
Definition cstr (s : string) : Prop := NUL ∉ chars s.

(** [s[i]] through a [const char *]: the characters, then the terminator. *)
Definition char_at (s : string) (i : nat) : ascii := default NUL (chars s !! i).

(** [s + n] on a [const char *] with [n] at most the length of [s]. *)
Definition ptr_add (s : string) (n : nat) : string :=
  string_of_list_ascii (drop n (chars s)).

Definition cell := option ascii.

Definition store (b : list cell) (i : nat) (c : ascii) : option (list cell) :=
  if decide (i < length b)%nat then Some (<[i := Some c]> b) else None.

(** errno values (include/uapi/asm-generic/errno-base.h). *)
Definition E2BIG : Z := 7.
Definition ENOMEM : Z := 12.
Definition EINVAL : Z := 22.

Definition INT_MAX : Z := 2 ^ 31 - 1.

(** Modelled from the spec: strcmp (lib/string.c) is not under src/.  On
    NUL-terminated strings it returns 0 exactly when the two contents are
    equal, and otherwise the sign of the first differing character. *)
Definition strcmp (cs ct : string) : Z :=
  match String.compare cs ct with
  | Eq => 0
  | Lt => -1
  | Gt => 1
  end.

(** Modelled from the spec: strncmp (lib/string.c) is not under src/.  It
    compares at most [count] characters and stops after a common NUL. *)
Fixpoint strncmp_from (cs ct : string) (i count : nat) : Z :=
  match count with
  | O => 0
  | S count' =>
      let c1 := char_at cs i in
      let c2 := char_at ct i in
      if decide (c1 ≠ c2) then
        (if decide (nat_of_ascii c1 < nat_of_ascii c2)%nat then -1 else 1)
      else if decide (c1 = NUL) then 0
      else strncmp_from cs ct (S i) count'
  end.

Definition strncmp (cs ct : string) (count : nat) : Z :=
  strncmp_from cs ct 0 count.

(** Modelled from the spec: strscpy (lib/string.c) is not under src/.  It
    copies the source, or as much of it as fits, into [dest], always
    terminates the copy, and returns the number of characters copied or
    [-E2BIG] when [count] is 0 or the source was truncated.  The loop is the
    byte-wise one of the library; [n] is [count - 1]. *)
Fixpoint strscpy_loop (dest : list cell) (src : string) (res n : nat)
  : option (list cell * Z) :=
  match n with
  | S n' =>
      let c := char_at src res in
      dest ← store dest res c;
      if decide (c = NUL) then Some (dest, Z.of_nat res)
      else strscpy_loop dest src (S res) n'
  | O =>
      dest ← store dest res NUL;
      Some (dest, if decide (char_at src res = NUL) then Z.of_nat res else - E2BIG)
  end.

Definition strscpy (dest : list cell) (src : string) (count : nat)
  : option (list cell * Z) :=
  if decide (count = 0%nat ∨ Z.of_nat count > INT_MAX) then Some (dest, - E2BIG)
  else strscpy_loop dest src 0 (count - 1).

(** Modelled from the spec: strreplace (lib/string.c) is not under src/.
    It walks the string in place up to its terminator and overwrites every
    [old] by [new]. *)
Fixpoint strreplace (str : list cell) (old new : ascii) : option (list cell) :=
  match str with
  | [] => None
  | None :: _ => None
  | Some c :: s =>
      if decide (c = NUL) then Some str
      else s' ← strreplace s old new;
           Some (Some (if decide (c = old) then new else c) :: s')
  end.

(** The NUL-terminated string held in a character array. *)
Fixpoint c_str (b : list cell) : option string :=
  match b with
  | [] => None
  | None :: _ => None
  | Some c :: b' =>
      if decide (c = NUL) then Some EmptyString
      else s ← c_str b'; Some (String c s)
  end.

(** ** The mode table *)

Record mode_info := { mode : string; magic : Z }.

(** [list_for_each_entry(info, head, list)
       if (!strcmp(info->mode, cmd)) return info->magic;]
    [Some m] is the early return, [None] the fall through. *)
Fixpoint match_mode (head : list mode_info) (cmd : string) : option Z :=
  match head with
  | [] => None
  | info :: rest =>
      if decide (strcmp (mode info) cmd = 0) then Some (magic info)
      else match_mode rest cmd
  end.

Definition sizeof_cmd_ : nat := 110.

(** No entry of the table has the name [n]. *)
Definition no_entry_named (head : list mode_info) (n : string) : Prop :=
  Forall (fun x => mode x ≠ n) head.

#[global] Instance no_entry_named_dec head n : Decision (no_entry_named head n).
Proof. unfold no_entry_named. apply _. Defined.

#[global] Instance cstr_dec s : Decision (cstr s).
Proof. unfold cstr. apply _. Defined.

(** [get_reboot_mode_magic] together with the content of [cmd_] when it
    returns; [head] is [reboot->head], the entries in list order, and a NULL
    [cmd] is [None]. *)
Definition get_reboot_mode_magic_frame (head : list mode_info) (cmd : option string)
  : option (Z * list cell) :=
  let normal := "normal"%string in
  let cmd_ : list cell := replicate sizeof_cmd_ None in
  let cmd := default normal cmd in
  match match_mode head cmd with
  | Some m => Some (m, cmd_)
  | None =>
      '(cmd_, r) ← strscpy cmd_ cmd sizeof_cmd_;
      if decide (r = - E2BIG) then Some (0, cmd_)
      else
        cmd_ ← strreplace cmd_ " " "-";
        cmd_ ← strreplace cmd_ "," "-";
        cmd_ ← strreplace cmd_ "/" "-";
        s ← c_str cmd_;
        Some (default 0 (match_mode head s), cmd_)
  end.

Definition get_reboot_mode_magic (head : list mode_info) (cmd : option string)
  : option Z :=
  fst <$> get_reboot_mode_magic_frame head cmd.

(** ** The notifier callback *)

(** include/linux/notifier.h *)
Definition NOTIFY_DONE : Z := 0.
Definition NOTIFY_STOP_MASK : Z := 0x8000.

(** What the callback does to its environment, in program order. *)
Inductive event :=
  | MutexLock
  | MutexUnlock
  | CallWrite (magic : Z).

(** ** The slab allocator *)

Definition block := nat.

(** [oom] tells, for each upcoming allocation request, whether it fails;
    requests beyond the list succeed. *)
Record slab := { live : gset block; oom : list bool }.

(** Modelled from the spec: kzalloc and kfree (mm/slab) are not under src/.
    An allocation either fails or returns a block that was not live; a
    block is freed once. *)
Definition kzalloc (m : slab) : option block * slab :=
  match oom m with
  | true :: rest => (None, {| live := live m; oom := rest |})
  | _ =>
      let b := fresh (live m) in
      (Some b, {| live := {[ b ]} ∪ live m; oom := tail (oom m) |})
  end.

Definition kfree (b : block) (m : slab) : option slab :=
  if decide (b ∈ live m) then Some {| live := live m ∖ {[ b ]}; oom := oom m |}
  else None.

(** Where the characters of a [const char *] are stored. *)
Inductive region :=
  | Rodata
  | Slab (b : block).

(** Modelled from the spec: kstrdup_const and kfree_const (mm/util.c) are not
    under src/.  A string in the kernel's read-only data is shared, any
    other is duplicated into a fresh block; only a duplicate is freed. *)
Definition kstrdup_const (s : string) (rodata : bool) (m : slab)
  : option (region * string) * slab :=
  if rodata then (Some (Rodata, s), m)
  else
    let '(b, m) := kzalloc m in
    ((fun b => (Slab b, s)) <$> b, m).

Definition kfree_const (x : region) (m : slab) : option slab :=
  match x with
  | Rodata => Some m
  | Slab b => kfree b m
  end.

(** ** The configuration source *)

(** A property of a device node: its name, whether the name is stored in
    read-only data, and its value as an array of 32-bit cells. *)
Record property := { name : string; name_rodata : bool; value : list Z }.

(** Modelled from the spec: of_find_property and of_property_read_u32_index
    (drivers/of) are not under src/.  The property is looked up by name in
    the node, the first with that name is taken, and the read fails unless
    the value has a cell at [index]. *)
Definition of_find_property (np : list property) (propname : string)
  : option property :=
  list_find (fun pp => strcmp (name pp) propname = 0) np ≫= fun r => Some r.2.

Definition of_property_read_u32_index (np : list property) (propname : string)
  (index : nat) : option Z :=
  pp ← of_find_property np propname;
  v ← value pp !! index;
  Some (v mod 2 ^ 32).

Definition of_property_read_u32 (np : list property) (propname : string)
  : option Z :=
  of_property_read_u32_index np propname 0.

(** ** Registration *)

Definition PREFIX : string := "mode-".

(** An allocated [struct mode_info]: its block, where its name is stored,
    and its fields. *)
Record node := { info_at : block; mode_at : region; info : mode_info }.

Record reboot_mode_driver := {
  head : list node;
  rb_lock : bool;
  reboot_notifier : bool
}.

Definition list_add_tail (new : node) (head : list node) : list node :=
  head ++ [new].

(** One turn of [for_each_property_of_node(np, prop) { ... }]: the list and
    the allocator after it, and [Some ret] for [goto error], [None] when the
    loop goes on ([continue] or the end of the body). *)
Definition loop_body (np : list property) (len : nat) (prop : property)
  (head : list node) (m : slab) : option (list node * slab * option Z) :=
  if decide (strncmp (name prop) PREFIX len ≠ 0) then Some (head, m, None)
  else
    let '(info, m) := kzalloc m in
    match info with
    | None => Some (head, m, Some (- ENOMEM))
    | Some info =>
        match of_property_read_u32 np (name prop) with
        | None =>
            m ← kfree info m;
            Some (head, m, None)
        | Some magic_arg1 =>
            let magic_arg2 :=
              default 0 (of_property_read_u32_index np (name prop) 1) in
            let magic := magic_arg2 in
            let magic := Z.lor (Z.shiftl magic 32 mod 2 ^ 64) magic_arg1 in
            let '(mode, m) :=
              kstrdup_const (ptr_add (name prop) len) (name_rodata prop) m in
            match mode with
            | None =>
                m ← kfree info m;
                Some (head, m, Some (- ENOMEM))
            | Some (at_, s) =>
                if decide (char_at s 0 = NUL) then
                  m ← kfree_const at_ m;
                  m ← kfree info m;
                  Some (head, m, Some (- EINVAL))
                else
                  let new := {| info_at := info; mode_at := at_;
                                info := {| mode := s; magic := magic |} |} in
                  Some (list_add_tail new head, m, None)
            end
        end
    end.

Fixpoint for_each_property (np props : list property) (len : nat)
  (head : list node) (m : slab) : option (list node * slab * option Z) :=
  match props with
  | [] => Some (head, m, None)
  | prop :: rest =>
      '(head, m, err) ← loop_body np len prop head m;
      match err with
      | None => for_each_property np rest len head m
      | Some ret => Some (head, m, Some ret)
      end
  end.

(** [list_for_each_entry_safe(info, next, &reboot->head, list)
       { list_del; kfree_const(info->mode); kfree(info); }] *)
Fixpoint release_all (head : list node) (m : slab) : option slab :=
  match head with
  | [] => Some m
  | n :: next =>
      m ← kfree_const (mode_at n) m;
      m ← kfree (info_at n) m;
      release_all next m
  end.

Definition reboot_mode_register (reboot : reboot_mode_driver)
  (np : option (list property)) (m : slab)
  : option (Z * reboot_mode_driver * slab) :=
  let len := String.length PREFIX in
  match np with
  | None => Some (- EINVAL, reboot, m)
  | Some np =>
      '(head, m, err) ← for_each_property np np len [] m;
      match err with
      | None =>
          Some (0, {| head := head; rb_lock := false; reboot_notifier := true |}, m)
      | Some ret =>
          m ← release_all head m;
          Some (ret, {| head := []; rb_lock := false;
                        reboot_notifier := reboot_notifier reboot |}, m)
      end
  end.

(** The table a driver holds: the entries of [reboot->head] in list order. *)
Definition table (reboot : reboot_mode_driver) : list mode_info :=
  info <$> head reboot.

Definition reboot_mode_notify (reboot : reboot_mode_driver) (mode : Z)
  (cmd : option string) : option (Z * list event) :=
  magic ← get_reboot_mode_magic (table reboot) cmd;
  Some (NOTIFY_DONE,
        [MutexLock; MutexUnlock] ++ (if decide (magic ≠ 0) then [CallWrite magic] else [])).

(** ** Unregistration *)

(** [unregister_reboot_notifier], then under the lock the release of every
    entry of the list. *)
Definition reboot_mode_unregister (reboot : reboot_mode_driver) (m : slab)
  : option (Z * reboot_mode_driver * slab) :=
  m ← release_all (head reboot) m;
  Some (0, {| head := []; rb_lock := false; reboot_notifier := false |}, m).

(** ** Managed registration *)

Definition ENOENT : Z := 2.

(** The release function of a managed resource: the one of this file or
    another. *)
Inductive dr_release_t :=
  | devm_reboot_mode_release_fn
  | other_release (id : nat).

#[global] Instance dr_release_t_eq_dec : EqDecision dr_release_t.
Proof. solve_decision. Defined.

(** A managed resource of this file's kind: its block, its release
    function, and its data, the address of a driver (0 for NULL). *)
Record devres := { dr_at : block; dr_release : dr_release_t; dr_data : nat }.

(** The drivers by address, each with [reboot->dev->of_node]; the
    resources of the device, [dev->devres_head]; the allocator. *)
Record device_state := {
  drivers : gmap nat (reboot_mode_driver * option (list property));
  devres_head : list devres;
  mem : slab
}.

(** The driver at an address; NULL and dangling addresses fault. *)
Definition deref (w : device_state) (reboot : nat)
  : option (reboot_mode_driver * option (list property)) :=
  if decide (reboot = 0%nat) then None else drivers w !! reboot.

(** The release callback: [reboot_mode_unregister] of the driver whose
    address the resource holds. *)
Definition devm_reboot_mode_release (res : nat) (w : device_state)
  : option device_state :=
  '(drv, of_node) ← deref w res;
  '(_, drv, m) ← reboot_mode_unregister drv (mem w);
  Some {| drivers := <[res := (drv, of_node)]> (drivers w);
          devres_head := devres_head w; mem := m |}.

(** Modelled from the spec: devres_alloc, devres_free, devres_add and
    devres_release (drivers/base/devres.c) are not under src/.  A resource
    is a zeroed block of the allocator; adding it puts it at the tail of
    the device's list; releasing searches the list from its tail for a
    resource of the given release function that the match function
    accepts, unlinks it, calls the release function and frees the block,
    and returns [-ENOENT] when there is none.  The first component of the
    results below counts the warnings raised ([WARN_ON]). *)
Definition devm_reboot_mode_match (res : nat) (data : nat) : nat * bool :=
  if decide (res = 0%nat) then (1%nat, false)
  else (0%nat, bool_decide (res = data)).

Fixpoint find_dr (from_tail : list devres) (match_data : nat)
  : nat * option (devres * list devres) :=
  match from_tail with
  | [] => (0%nat, None)
  | dr :: rest =>
      if decide (dr_release dr ≠ devm_reboot_mode_release_fn) then
        let '(warned, found) := find_dr rest match_data in
        (warned, (fun r => (r.1, dr :: r.2)) <$> found)
      else
        let '(warn, ok) := devm_reboot_mode_match (dr_data dr) match_data in
        if ok then (warn, Some (dr, rest))
        else
          let '(warned, found) := find_dr rest match_data in
          ((warn + warned)%nat, (fun r => (r.1, dr :: r.2)) <$> found)
  end.

Definition devres_release (match_data : nat) (w : device_state)
  : option (nat * Z * device_state) :=
  let '(warned, found) := find_dr (reverse (devres_head w)) match_data in
  match found with
  | None => Some (warned, - ENOENT, w)
  | Some (dr, rest) =>
      let w := {| drivers := drivers w; devres_head := reverse rest; mem := mem w |} in
      w ← devm_reboot_mode_release (dr_data dr) w;
      m ← kfree (dr_at dr) (mem w);
      Some (warned, 0,
            {| drivers := drivers w; devres_head := devres_head w; mem := m |})
  end.

Definition devm_reboot_mode_register (reboot : nat) (w : device_state)
  : option (Z * device_state) :=
  let '(dr, m) := kzalloc (mem w) in
  match dr with
  | None =>
      Some (- ENOMEM,
            {| drivers := drivers w; devres_head := devres_head w; mem := m |})
  | Some dr =>
      '(drv, of_node) ← deref w reboot;
      '(rc, drv, m) ← reboot_mode_register drv of_node m;
      let drivers' := <[reboot := (drv, of_node)]> (drivers w) in
      if decide (rc ≠ 0) then
        m ← kfree dr m;
        Some (rc, {| drivers := drivers'; devres_head := devres_head w; mem := m |})
      else
        let res := {| dr_at := dr; dr_release := devm_reboot_mode_release_fn;
                      dr_data := reboot |} in
        Some (0, {| drivers := drivers';
                    devres_head := devres_head w ++ [res]; mem := m |})
  end.

(** The number of warnings raised, and the state afterwards. *)
Definition devm_reboot_mode_unregister (reboot : nat) (w : device_state)
  : option (nat * device_state) :=
  '(warned, ret, w) ← devres_release reboot w;
  Some ((if decide (ret ≠ 0) then S warned else warned), w).

(** ** Notions used to state the properties *)

(** The characters [strscpy] copies: those before the terminator, at most
    [n] of them. *)
Fixpoint c_take (n : nat) (l : list ascii) : list ascii :=
  match n, l with
  | S n', c :: l' => if decide (c = NUL) then [] else c :: c_take n' l'
  | _, _ => []
  end.

Definition repl (old new c : ascii) : ascii := if decide (c = old) then new else c.

(** Every space, comma and forward slash becomes a hyphen. *)
Definition dash (c : ascii) : ascii :=
  if decide (c = " "%char ∨ c = ","%char ∨ c = "/"%char) then "-"%char else c.

Definition hyphenate (s : string) : string :=
  string_of_list_ascii (dash <$> chars s).

(** The key of a property carries the prefix. *)
Definition qualifies (p : property) : Prop :=
  strncmp (name p) PREFIX (String.length PREFIX) = 0.

#[global] Instance qualifies_dec p : Decision (qualifies p).
Proof. unfold qualifies. apply _. Defined.

(** The key of a property without the prefix. *)
Definition mode_name (p : property) : string :=
  ptr_add (name p) (String.length PREFIX).

(** The empty NUL-terminated string. *)
Definition c_empty (s : string) : Prop := char_at s 0 = NUL.

#[global] Instance c_empty_dec s : Decision (c_empty s).
Proof. unfold c_empty. apply _. Defined.

(** The low 32-bit magic value cannot be read under the property's name. *)
Definition missing_low (np : list property) (p : property) : Prop :=
  of_property_read_u32 np (name p) = None.

#[global] Instance missing_low_dec np p : Decision (missing_low np p).
Proof. unfold missing_low. apply _. Defined.

(** The entry a qualifying property stands for: [(high << 32) | low], with
    [high] 0 when absent; none when the low value is missing. *)
Definition entry_of (np : list property) (p : property) : option mode_info :=
  low ← of_property_read_u32 np (name p);
  let high := default 0 (of_property_read_u32_index np (name p) 1) in
  Some {| mode := mode_name p; magic := Z.lor (Z.shiftl high 32) low |}.

Definition expected_table (np props : list property) : list mode_info :=
  omap (entry_of np) (filter qualifies props).

(** The blocks a list of entries holds. *)
Definition blocks_of (n : node) : list block :=
  info_at n :: match mode_at n with Slab b => [b] | Rodata => [] end.

Definition owned (head : list node) : list block := head ≫= blocks_of.

(** The live blocks are those of [L0] and, each once, those of the list. *)
Definition owns (L0 : gset block) (head : list node) (m : slab) : Prop :=
  NoDup (owned head) ∧ (∀ b, b ∈ owned head → b ∉ L0) ∧
  live m = list_to_set (owned head) ∪ L0.

(** No upcoming allocation request fails. *)
Definition never_fails (m : slab) : Prop := Forall (fun b => b = false) (oom m).

#[global] Instance never_fails_dec m : Decision (never_fails m).
Proof. unfold never_fails. apply _. Defined.

(** A character the second scan replaces. *)
Definition separator (c : ascii) : Prop :=
  c = " "%char ∨ c = ","%char ∨ c = "/"%char.

#[global] Instance separator_dec c : Decision (separator c).
Proof. unfold separator. apply _. Defined.

(** ** Sample inputs *)

(** A request of 110 characters: 111 bytes with its terminator. *)
Definition long_a : string := string_of_list_ascii (replicate 110 "a"%char).

Definition hyphen_table : list mode_info :=
  [ {| mode := "normal"; magic := 7 |};
    {| mode := "re-covery"; magic := 0x2A |};
    {| mode := "re-covery"; magic := 9 |} ].

Definition fresh_driver : reboot_mode_driver :=
  {| head := []; rb_lock := false; reboot_notifier := false |}.

Definition slab_of (o : list bool) : slab := {| live := ∅; oom := o |}.

Definition prop_of (n : string) (v : list Z) : property :=
  {| name := n; name_rodata := false; value := v |}.

(** The driver a device node registers when no allocation fails. *)
Definition registered (np : list property) : option reboot_mode_driver :=
  (fun r => r.1.2) <$> reboot_mode_register fresh_driver (Some np) (slab_of []).

(** What a run of [reboot_mode_register] leaves behind: the return value,
    the table, whether the notifier is registered, the live blocks. *)
Definition outcome (r : option (Z * reboot_mode_driver * slab))
  : option (Z * list mode_info * bool * list block) :=
  (fun r => (r.1.1, table r.1.2, reboot_notifier r.1.2, elements (live r.2))) <$> r.

Definition sample_node : list property :=
  [ prop_of "mode-recovery" [1];
    prop_of "compatible" [];
    prop_of "mode-doc" [];
    {| name := "mode-bootloader"; name_rodata := true; value := [2; 3] |} ].

Definition sample_device : device_state :=
  {| drivers := {[ 1%nat := (fresh_driver, Some sample_node) ]};
     devres_head := [ {| dr_at := 0%nat; dr_release := other_release 3; dr_data := 5%nat |} ];
     mem := {| live := {[ 0%nat ]}; oom := [] |} |}.

(** What is to be seen of a device: its resources, the live blocks, and
    the table and notifier of the driver at an address. *)
Definition view (reboot : nat) (w : device_state)
  : list devres * list block * option (list mode_info * bool) :=
  (devres_head w, elements (live (mem w)),
   (fun d => (table d.1, reboot_notifier d.1)) <$> drivers w !! reboot).

(** * Lemmas *)

(** ** Strings *)

Lemma string_compare_refl s : String.compare s s = Eq.
Proof.
  pose proof (String.compare_antisym s s) as H.
  destruct (String.compare s s); simpl in H; congruence.
Qed.

Lemma strcmp_eq cs ct : strcmp cs ct = 0 ↔ cs = ct.
Proof.
  unfold strcmp. split.
  - destruct (String.compare cs ct) eqn:E; try done.
    intros _. by apply String.compare_eq_iff.
  - intros ->. by rewrite string_compare_refl.
Qed.

Lemma chars_of_list (l : list ascii) : chars (string_of_list_ascii l) = l.
Proof. apply list_ascii_of_string_of_list_ascii. Qed.

Lemma of_list_chars s : string_of_list_ascii (chars s) = s.
Proof. apply string_of_list_ascii_of_string. Qed.

Lemma chars_inj s t : chars s = chars t → s = t.
Proof. intros H. rewrite <- (of_list_chars s), <- (of_list_chars t). by rewrite H. Qed.

Lemma length_chars s : length (chars s) = String.length s.
Proof. induction s as [|c s IH]; [done|]. cbn. f_equal. exact IH. Qed.

Lemma char_at_lookup s i c : chars s !! i = Some c → char_at s i = c.
Proof. unfold char_at. by intros ->. Qed.

Lemma char_at_end s i : (length (chars s) ≤ i)%nat → char_at s i = NUL.
Proof. intros H. unfold char_at. by rewrite lookup_ge_None_2. Qed.

Lemma char_at_cstr s i : cstr s → (i < length (chars s))%nat → char_at s i ≠ NUL.
Proof.
  intros Hs Hi. destruct (lookup_lt_is_Some_2 _ _ Hi) as [c Hc].
  rewrite (char_at_lookup _ _ _ Hc). intros ->.
  apply Hs. by eapply list_elem_of_lookup_2.
Qed.

(** ** The two scans of the table *)

Lemma match_mode_None head cmd :
  match_mode head cmd = None ↔ ∀ x, x ∈ head → mode x ≠ cmd.
Proof.
  induction head as [|info rest IH]; simpl.
  - split; [|done]. intros _ x Hx. by apply not_elem_of_nil in Hx.
  - case_decide as E.
    + split; [done|]. intros H. apply strcmp_eq in E.
      exfalso. apply (H info); [left | done].
    + rewrite IH. rewrite strcmp_eq in E. split.
      * intros H x Hx. apply elem_of_cons in Hx as [->|Hx]; auto.
      * intros H x Hx. apply H. by right.
Qed.

Lemma match_mode_first l1 e l2 cmd :
  (∀ x, x ∈ l1 → mode x ≠ cmd) → mode e = cmd →
  match_mode (l1 ++ e :: l2) cmd = Some (magic e).
Proof.
  intros Hl1 He. induction l1 as [|a l1 IH]; simpl.
  - case_decide as E; [done|]. by rewrite strcmp_eq in E.
  - case_decide as E.
    + apply strcmp_eq in E. exfalso. apply (Hl1 a); [left | done].
    + apply IH. intros x Hx. apply Hl1. by right.
Qed.

Lemma match_mode_Some head cmd m :
  match_mode head cmd = Some m →
  ∃ l1 e l2, head = l1 ++ e :: l2 ∧ (∀ x, x ∈ l1 → mode x ≠ cmd) ∧
             mode e = cmd ∧ magic e = m.
Proof.
  induction head as [|info rest IH]; simpl; [done|].
  case_decide as E.
  - intros [= <-]. apply strcmp_eq in E. exists [], info, rest.
    split_and!; try done. intros x Hx. by apply not_elem_of_nil in Hx.
  - intros H. destruct (IH H) as (l1 & e & l2 & -> & Hl1 & He & Hm).
    exists (info :: l1), e, l2. split_and!; try done.
    intros x Hx. apply elem_of_cons in Hx as [->|Hx]; [|by auto].
    by rewrite strcmp_eq in E.
Qed.

(** ** The copy into [cmd_] *)

Lemma c_take_no_NUL n l : NUL ∉ c_take n l.
Proof.
  revert l. induction n as [|n IH]; intros [|c l]; simpl; try apply not_elem_of_nil.
  case_decide; [apply not_elem_of_nil|].
  apply not_elem_of_cons. split; [done | apply IH].
Qed.

Lemma c_take_length n l : (length (c_take n l) ≤ n)%nat.
Proof.
  revert l. induction n as [|n IH]; intros [|c l]; simpl; try lia.
  case_decide; simpl; [lia|]. specialize (IH l). lia.
Qed.

Lemma c_take_cstr n l : NUL ∉ l → c_take n l = take n l.
Proof.
  revert l. induction n as [|n IH]; intros [|c l] H; simpl; try done.
  apply not_elem_of_cons in H as [Hc Hl].
  case_decide; [done|]. by rewrite IH.
Qed.

Lemma store_middle (pre : list cell) y post c :
  store (pre ++ y :: post) (length pre) c = Some (pre ++ Some c :: post).
Proof.
  unfold store. rewrite decide_True by (rewrite length_app; simpl; lia).
  f_equal. replace (length pre) with (length pre + 0)%nat at 1 by lia.
  by rewrite insert_app_r.
Qed.

Lemma drop_chars_cons s res c :
  chars s !! res = Some c → drop res (chars s) = c :: drop (S res) (chars s).
Proof. intros H. by rewrite (drop_S _ _ _ H). Qed.

Lemma strscpy_loop_spec n : ∀ (pre post : list cell) src,
  (n < length post)%nat →
  let ct := c_take n (drop (length pre) (chars src)) in
  strscpy_loop (pre ++ post) src (length pre) n =
    Some (pre ++ (Some <$> ct) ++ Some NUL :: drop (S (length ct)) post,
          if decide (char_at src (length pre + length ct) = NUL)
          then Z.of_nat (length pre + length ct) else - E2BIG).
Proof.
  induction n as [|n IH]; intros pre post src Hn ct.
  - destruct post as [|y post]; [simpl in Hn; lia|].
    subst ct. cbn [c_take strscpy_loop]. rewrite store_middle. cbn.
    rewrite drop_0. by rewrite Nat.add_0_r.
  - destruct post as [|y post]; [simpl in Hn; lia|].
    cbn [strscpy_loop]. rewrite store_middle. cbn [mbind option_bind].
    destruct (chars src !! length pre) as [c|] eqn:Hc.
    + rewrite (char_at_lookup _ _ _ Hc).
      subst ct. rewrite (drop_chars_cons _ _ _ Hc). cbn [c_take].
      case_decide as E.
      * subst c. cbn. rewrite drop_0, Nat.add_0_r.
        by rewrite (char_at_lookup _ _ _ Hc), decide_True.
      * specialize (IH (pre ++ [Some c]) post src).
        rewrite length_app in IH. cbn [length] in IH.
        replace (length pre + 1)%nat with (S (length pre)) in IH by lia.
        rewrite <- (assoc_L (++)) in IH. cbn [app] in IH.
        etrans; [apply IH; simpl in Hn; lia|].
        cbn [length fmap list_fmap]. rewrite <- (assoc_L (++)). cbn [app drop].
        by rewrite Nat.add_succ_r.
    + assert (drop (length pre) (chars src) = []) as Hd.
      { apply drop_ge. by apply lookup_ge_None. }
      subst ct. rewrite Hd. cbn [c_take].
      assert (char_at src (length pre) = NUL) as Hn0.
      { apply char_at_end. by apply lookup_ge_None. }
      rewrite Hn0, decide_True by done. cbn.
      by rewrite drop_0, Nat.add_0_r, Hn0, decide_True.
Qed.

(** ** Normalisation *)

Lemma strreplace_spec (l : list ascii) (rest : list cell) old new :
  NUL ∉ l →
  strreplace ((Some <$> l) ++ Some NUL :: rest) old new =
    Some ((Some <$> (repl old new <$> l)) ++ Some NUL :: rest).
Proof.
  induction l as [|c l IH]; intros H; cbn.
  - by rewrite decide_True.
  - apply not_elem_of_cons in H as [Hc Hl].
    rewrite decide_False by done. rewrite (IH Hl). done.
Qed.

Lemma c_str_spec (l : list ascii) (rest : list cell) :
  NUL ∉ l → c_str ((Some <$> l) ++ Some NUL :: rest) = Some (string_of_list_ascii l).
Proof.
  induction l as [|c l IH]; intros H; cbn.
  - by rewrite decide_True.
  - apply not_elem_of_cons in H as [Hc Hl].
    rewrite decide_False by done. rewrite (IH Hl). done.
Qed.

Lemma repl_no_NUL old new (l : list ascii) :
  new ≠ NUL → NUL ∉ l → NUL ∉ repl old new <$> l.
Proof.
  intros Hnew Hl Hin. apply list_elem_of_fmap in Hin as (c & Hc & Hin).
  unfold repl in Hc. case_decide; [congruence|]. by subst c.
Qed.

Lemma repl_dash c :
  repl "/" "-" (repl "," "-" (repl " " "-" c)) = dash c.
Proof.
  unfold repl, dash.
  destruct (decide (c = " "%char)) as [->|H1]; [done|].
  destruct (decide (c = ","%char)) as [->|H2]; [done|].
  destruct (decide (c = "/"%char)) as [->|H3]; [done|].
  rewrite decide_False; [done | by intros [?|[?|?]]].
Qed.

Lemma repl_thrice (l : list ascii) :
  repl "/" "-" <$> (repl "," "-" <$> (repl " " "-" <$> l)) = dash <$> l.
Proof.
  rewrite <- !list_fmap_compose. apply list_fmap_ext. intros _ c _. apply repl_dash.
Qed.

Lemma hyphen_not_NUL : "-"%char ≠ NUL.
Proof. done. Qed.

Ltac no_NUL :=
  repeat (refine (repl_no_NUL _ _ _ hyphen_not_NUL _)); assumption.

(** What [get_reboot_mode_magic] computes, without the array operations:
    [ct] is what the copy keeps of the request. *)
Lemma get_reboot_mode_magic_frame_eq head cmd :
  get_reboot_mode_magic_frame head cmd =
    let c := default "normal"%string cmd in
    match match_mode head c with
    | Some m => Some (m, replicate sizeof_cmd_ None)
    | None =>
        let ct := c_take (sizeof_cmd_ - 1) (chars c) in
        let rest : list cell := replicate (sizeof_cmd_ - S (length ct)) None in
        if decide (char_at c (length ct) = NUL) then
          Some (default 0 (match_mode head (string_of_list_ascii (dash <$> ct))),
                (Some <$> (dash <$> ct)) ++ Some NUL :: rest)
        else Some (0, (Some <$> ct) ++ Some NUL :: rest)
    end.
Proof.
  unfold get_reboot_mode_magic_frame. cbv zeta.
  destruct (match_mode head (default "normal"%string cmd)); [done|].
  unfold strscpy. rewrite decide_False by (by intros [?|?]).
  pose proof (strscpy_loop_spec (sizeof_cmd_ - 1) [] (replicate sizeof_cmd_ None)
                (default "normal"%string cmd)) as Hcopy.
  cbn [app length] in Hcopy. rewrite drop_0 in Hcopy. cbv zeta in Hcopy.
  rewrite Hcopy by (rewrite length_replicate; unfold sizeof_cmd_; lia).
  clear Hcopy. cbn [mbind option_bind]. rewrite drop_replicate.
  set (ct := c_take (sizeof_cmd_ - 1) (chars (default "normal"%string cmd))).
  cbn [Nat.add].
  pose proof (c_take_no_NUL (sizeof_cmd_ - 1) (chars (default "normal"%string cmd))) as Hct.
  fold ct in Hct.
  destruct (decide (char_at (default "normal"%string cmd) (length ct) = NUL)) as [E|E].
  - rewrite decide_False by (unfold E2BIG; lia).
    rewrite strreplace_spec by done. cbn [mbind option_bind].
    rewrite strreplace_spec by no_NUL. cbn [mbind option_bind].
    rewrite strreplace_spec by no_NUL. cbn [mbind option_bind].
    rewrite c_str_spec by no_NUL. cbn [mbind option_bind].
    by rewrite repl_thrice.
  - by rewrite decide_True.
Qed.

Lemma get_reboot_mode_magic_total head cmd :
  is_Some (get_reboot_mode_magic head cmd).
Proof.
  unfold get_reboot_mode_magic. rewrite get_reboot_mode_magic_frame_eq. cbv zeta.
  destruct (match_mode head _); [by eexists|].
  case_decide; by eexists.
Qed.

Lemma get_reboot_mode_magic_fits head (c : string) :
  cstr c → (String.length c < sizeof_cmd_)%nat →
  match_mode head c = None →
  get_reboot_mode_magic_frame head (Some c) =
    Some (default 0 (match_mode head (hyphenate c)),
          (Some <$> (dash <$> chars c)) ++ Some NUL
            :: replicate (sizeof_cmd_ - S (String.length c)) None).
Proof.
  intros Hc Hlen Hno. rewrite get_reboot_mode_magic_frame_eq.
  change (default "normal"%string (Some c)) with c. cbv zeta.
  rewrite Hno. rewrite <- length_chars in *.
  rewrite (c_take_cstr _ _ Hc), take_ge by lia.
  rewrite decide_True by (by apply char_at_end). done.
Qed.

Lemma get_reboot_mode_magic_overlong head (c : string) :
  cstr c → (sizeof_cmd_ ≤ String.length c)%nat →
  match_mode head c = None →
  get_reboot_mode_magic_frame head (Some c) =
    Some (0, (Some <$> take (sizeof_cmd_ - 1) (chars c)) ++ [Some NUL]).
Proof.
  intros Hc Hlen Hno. rewrite get_reboot_mode_magic_frame_eq.
  change (default "normal"%string (Some c)) with c. cbv zeta.
  rewrite Hno. rewrite <- length_chars in *.
  rewrite (c_take_cstr _ _ Hc).
  rewrite length_take, Nat.min_l by lia.
  rewrite decide_False by (apply char_at_cstr; [done | unfold sizeof_cmd_ in *; lia]).
  done.
Qed.

Lemma match_mode_no_entry head cmd :
  match_mode head cmd = None ↔ no_entry_named head cmd.
Proof. unfold no_entry_named. rewrite Forall_forall. apply match_mode_None. Qed.

Lemma match_mode_first_named l1 e l2 cmd :
  no_entry_named l1 cmd → mode e = cmd →
  match_mode (l1 ++ e :: l2) cmd = Some (magic e).
Proof.
  intros H. apply match_mode_first. by apply Forall_forall.
Qed.

(** A request that fits [cmd_] and has no exact match resolves to the first
    entry named as the request with its separators turned into hyphens. *)
Lemma resolve_normalized l1 e l2 (cmd : string) :
  cstr cmd → (String.length cmd < sizeof_cmd_)%nat →
  no_entry_named (l1 ++ e :: l2) cmd →
  no_entry_named l1 (hyphenate cmd) → mode e = hyphenate cmd →
  get_reboot_mode_magic (l1 ++ e :: l2) (Some cmd) = Some (magic e).
Proof.
  intros Hc Hlen Hno Hl1 He. unfold get_reboot_mode_magic.
  rewrite get_reboot_mode_magic_fits; [|done|done|by apply match_mode_no_entry].
  cbn. by rewrite match_mode_first_named.
Qed.

Lemma resolve_nothing head (cmd : string) :
  cstr cmd → (String.length cmd < sizeof_cmd_)%nat →
  no_entry_named head cmd → no_entry_named head (hyphenate cmd) →
  get_reboot_mode_magic head (Some cmd) = Some 0.
Proof.
  intros Hc Hlen Hno Hn. unfold get_reboot_mode_magic.
  rewrite get_reboot_mode_magic_fits; [|done|done|by apply match_mode_no_entry].
  cbn. by rewrite (proj2 (match_mode_no_entry _ _) Hn).
Qed.

(** ** The allocator *)

Lemma kzalloc_cases m :
  (∃ rest, oom m = true :: rest ∧
           kzalloc m = (None, {| live := live m; oom := rest |})) ∨
  (kzalloc m = (Some (fresh (live m)),
                {| live := {[ fresh (live m) ]} ∪ live m; oom := tail (oom m) |}) ∧
   (oom m = [] ∨ ∃ rest, oom m = false :: rest)).
Proof.
  unfold kzalloc. destruct (oom m) as [|[] rest]; eauto.
Qed.

Lemma kzalloc_never_fails m :
  never_fails m →
  kzalloc m = (Some (fresh (live m)),
               {| live := {[ fresh (live m) ]} ∪ live m; oom := tail (oom m) |}) ∧
  never_fails {| live := {[ fresh (live m) ]} ∪ live m; oom := tail (oom m) |}.
Proof.
  unfold never_fails, kzalloc. intros H.
  destruct (oom m) as [|[] rest]; cbn.
  - done.
  - by apply Forall_cons in H as [? _].
  - apply Forall_cons in H as [_ H]. done.
Qed.

Lemma kfree_live b m :
  b ∈ live m → kfree b m = Some {| live := live m ∖ {[ b ]}; oom := oom m |}.
Proof. intros H. unfold kfree. by rewrite decide_True. Qed.

Lemma fresh_live (L : gset block) : fresh L ∉ L.
Proof. apply is_fresh. Qed.

Lemma alloc_free (L : gset block) b : b ∉ L → ({[ b ]} ∪ L) ∖ {[ b ]} = L.
Proof. set_solver. Qed.

Lemma alloc2_free (L : gset block) b b2 :
  b ∉ L → b2 ∉ {[ b ]} ∪ L → (({[ b2 ]} ∪ ({[ b ]} ∪ L)) ∖ {[ b2 ]}) ∖ {[ b ]} = L.
Proof. set_solver. Qed.

Lemma tail_subseteq (l : list bool) x : x ∈ tail l → x ∈ l.
Proof. destruct l; cbn; [done|]. by right. Qed.

(** ** Reading the magic values *)

Lemma of_property_read_u32_index_range np propname index v :
  of_property_read_u32_index np propname index = Some v → 0 ≤ v < 2 ^ 32.
Proof.
  unfold of_property_read_u32_index. intros H.
  destruct (of_find_property np propname) as [pp|]; [|done]. cbn in H.
  destruct (value pp !! index) as [w|]; [|done]. cbn in H.
  injection H as <-. apply Z.mod_pos_bound. lia.
Qed.

Lemma magic_compose high low :
  0 ≤ high < 2 ^ 32 →
  Z.lor (Z.shiftl high 32 mod 2 ^ 64) low = Z.lor (Z.shiftl high 32) low.
Proof.
  intros H. f_equal. apply Z.mod_small. rewrite Z.shiftl_mul_pow2 by lia. lia.
Qed.

Lemma entry_of_Some np p low :
  of_property_read_u32 np (name p) = Some low →
  entry_of np p =
    Some {| mode := mode_name p;
            magic := Z.lor (Z.shiftl (default 0 (of_property_read_u32_index np (name p) 1)) 32
                              mod 2 ^ 64) low |}.
Proof.
  intros H. unfold entry_of. rewrite H. cbn. do 2 f_equal.
  symmetry. apply magic_compose.
  destruct (of_property_read_u32_index np (name p) 1) as [h|] eqn:E; cbn.
  - by eapply of_property_read_u32_index_range.
  - lia.
Qed.

(** ** One turn of the registration loop *)

Lemma owned_add_tail new head :
  owned (list_add_tail new head) = owned head ++ blocks_of new.
Proof.
  unfold owned, list_add_tail. rewrite bind_app. cbn. by rewrite app_nil_r.
Qed.

Lemma owns_same_live L0 head m m' : live m' = live m → owns L0 head m → owns L0 head m'.
Proof. unfold owns. by intros ->. Qed.

Lemma owns_add L0 head m new m' :
  owns L0 head m →
  NoDup (blocks_of new) →
  (∀ b, b ∈ blocks_of new → b ∉ live m) →
  live m' = list_to_set (blocks_of new) ∪ live m →
  owns L0 (list_add_tail new head) m'.
Proof.
  intros (Hnd & Hdisj & Hlive) Hnew Hfresh Hm'. unfold owns.
  rewrite owned_add_tail. split_and!.
  - apply NoDup_app. split_and!; [done| |done].
    intros b Hb Hb'. apply (Hfresh b Hb'). rewrite Hlive. set_solver.
  - intros b Hb. apply elem_of_app in Hb as [Hb|Hb]; [by apply Hdisj|].
    intros HL0. apply (Hfresh b Hb). rewrite Hlive. set_solver.
  - rewrite Hm', Hlive, list_to_set_app_L. set_solver.
Qed.

Lemma loop_body_owns L0 np len prop head m :
  owns L0 head m →
  ∃ head' m' err, loop_body np len prop head m = Some (head', m', err) ∧
                  owns L0 head' m'.
Proof.
  intros Hown. unfold loop_body.
  case_decide; [by eauto|].
  pose proof (fresh_live (live m)) as Hb.
  destruct (kzalloc_cases m) as [(rest & _ & ->)|[-> _]].
  { eexists _, _, _. split; [done|]. by eapply owns_same_live. }
  set (b := fresh (live m)) in *.
  destruct (of_property_read_u32 np (name prop)) as [magic_arg1|].
  2:{ rewrite kfree_live by (cbn; set_solver). cbn.
      eexists _, _, _. split; [done|].
      eapply owns_same_live; [|done]. cbn. by apply alloc_free. }
  unfold kstrdup_const. destruct (name_rodata prop).
  - case_decide.
    + cbn. rewrite kfree_live by (cbn; set_solver). cbn.
      eexists _, _, _. split; [done|].
      eapply owns_same_live; [|done]. cbn. by apply alloc_free.
    + eexists _, _, _. split; [done|].
      eapply owns_add; [done| | |].
      * cbn. apply NoDup_singleton.
      * cbn. intros b' Hb'. apply list_elem_of_singleton in Hb'. by subst.
      * cbn. set_solver.
  - set (m1 := {| live := {[ b ]} ∪ live m; oom := tail (oom m) |}).
    pose proof (fresh_live (live m1)) as Hb2.
    destruct (kzalloc_cases m1) as [(rest & _ & ->)|[-> _]].
    { cbn. rewrite kfree_live by (cbn; set_solver). cbn.
      eexists _, _, _. split; [done|].
      eapply owns_same_live; [|done]. cbn. by apply alloc_free. }
    set (b2 := fresh (live m1)) in *. cbn [fmap option_fmap option_map].
    case_decide.
    + cbn. rewrite kfree_live by (cbn; set_solver). cbn.
      rewrite kfree_live by (cbn; set_solver). cbn.
      eexists _, _, _. split; [done|].
      eapply owns_same_live; [|done]. cbn. by apply alloc2_free.
    + eexists _, _, _. split; [done|].
      eapply owns_add; [done| | |].
      * cbn. apply NoDup_cons. split; [|apply NoDup_singleton].
        intros Hin. apply list_elem_of_singleton in Hin. set_solver.
      * cbn. intros b' Hb'. set_solver.
      * cbn. set_solver.
Qed.

Lemma loop_body_flow np prop head m head' m' err :
  loop_body np (String.length PREFIX) prop head m = Some (head', m', err) →
  (∀ x, x ∈ oom m' → x ∈ oom m) ∧
  ∀ ret, err = Some ret →
    (ret = - EINVAL ∧ qualifies prop ∧ c_empty (mode_name prop)) ∨
    (ret = - ENOMEM ∧ true ∈ oom m).
Proof.
  unfold loop_body, qualifies, c_empty, mode_name.
  case_decide as Hq; [by intros [= <- <- <-]|].
  destruct (kzalloc_cases m) as [(rest & Hoom & ->)|[-> _]].
  { intros [= <- <- <-]. cbn. rewrite Hoom. split; [by right|].
    intros ret [= <-]. right. split; [done|left]. }
  destruct (of_property_read_u32 np (name prop)) as [magic_arg1|].
  2:{ intros H. apply bind_Some in H as (m1 & Hm1 & [= <- <- <-]).
      unfold kfree in Hm1. case_decide; [|done]. injection Hm1 as <-. cbn.
      split; [apply tail_subseteq | done]. }
  unfold kstrdup_const. destruct (name_rodata prop).
  - case_decide as He.
    + intros H. apply bind_Some in H as (m1 & [= <-] & H).
      apply bind_Some in H as (m2 & Hm2 & [= <- <- <-]).
      unfold kfree in Hm2. case_decide; [|done]. injection Hm2 as <-. cbn.
      split; [apply tail_subseteq|]. intros ret [= <-]. by left.
    + intros [= <- <- <-]. cbn. split; [apply tail_subseteq | done].
  - set (m1 := {| live := _; oom := tail (oom m) |}).
    destruct (kzalloc_cases m1) as [(rest & Hoom & ->)|[-> _]].
    { cbn. intros H. apply bind_Some in H as (m2 & Hm2 & [= <- <- <-]).
      unfold kfree in Hm2. case_decide; [|done]. injection Hm2 as <-. cbn.
      cbn in Hoom. split.
      - intros x Hx. apply tail_subseteq. rewrite Hoom. by right.
      - intros ret [= <-]. right. split; [done|].
        apply tail_subseteq. rewrite Hoom. left. }
    cbn [fmap option_fmap option_map]. case_decide as He.
    + intros H. apply bind_Some in H as (m2 & Hm2 & H).
      apply bind_Some in H as (m3 & Hm3 & [= <- <- <-]).
      unfold kfree_const, kfree in Hm2. case_decide; [|done]. injection Hm2 as <-.
      unfold kfree in Hm3. case_decide; [|done]. injection Hm3 as <-. cbn.
      split; [intros x Hx; by do 2 apply tail_subseteq|].
      intros ret [= <-]. by left.
    + intros [= <- <- <-]. cbn.
      split; [intros x Hx; by do 2 apply tail_subseteq | done].
Qed.

Lemma loop_body_ok np prop head m :
  never_fails m →
  (qualifies prop → ¬ c_empty (mode_name prop)) →
  ∃ new m', loop_body np (String.length PREFIX) prop head m = Some (head ++ new, m', None) ∧
            info <$> new = omap (entry_of np) (filter qualifies [prop]) ∧
            never_fails m'.
Proof.
  intros Hm Hne. unfold loop_body. rewrite filter_cons, filter_nil.
  fold (qualifies prop).
  destruct (decide (qualifies prop)) as [Hq|Hq].
  2:{ rewrite decide_True by done. exists [], m. by rewrite app_nil_r. }
  rewrite decide_False by (by intros ?).
  specialize (Hne Hq).
  destruct (kzalloc_never_fails m Hm) as [-> Hm1].
  set (m1 := {| live := _; oom := tail (oom m) |}) in *.
  cbn [omap list_omap].
  destruct (of_property_read_u32 np (name prop)) as [magic_arg1|] eqn:Hlow.
  2:{ rewrite kfree_live by (cbn; set_solver). cbn.
      unfold entry_of. rewrite Hlow. cbn.
      eexists [], _. rewrite app_nil_r. split_and!; done. }
  rewrite (entry_of_Some _ _ _ Hlow).
  unfold kstrdup_const. destruct (name_rodata prop).
  - rewrite decide_False by done.
    eexists [_], _. split_and!; done.
  - destruct (kzalloc_never_fails m1 Hm1) as [-> Hm2].
    cbn [fmap option_fmap option_map]. rewrite decide_False by done.
    eexists [_], _. split_and!; done.
Qed.

(** ** The whole loop and the release of the list *)

Lemma for_each_property_owns L0 np len props : ∀ head m,
  owns L0 head m →
  ∃ head' m' err, for_each_property np props len head m = Some (head', m', err) ∧
                  owns L0 head' m'.
Proof.
  induction props as [|prop rest IH]; intros head m Hown; cbn.
  - by eauto.
  - destruct (loop_body_owns L0 np len prop head m Hown)
      as (head1 & m1 & err & -> & Hown1). cbn.
    destruct err as [ret|]; [by eauto|]. by apply IH.
Qed.

Lemma for_each_property_error np props : ∀ head m head' m' ret,
  for_each_property np props (String.length PREFIX) head m = Some (head', m', Some ret) →
  (ret = - EINVAL ∧ ∃ p, p ∈ props ∧ qualifies p ∧ c_empty (mode_name p)) ∨
  (ret = - ENOMEM ∧ true ∈ oom m).
Proof.
  induction props as [|prop rest IH]; intros head m head' m' ret; cbn -[String.length]; [done|].
  intros H. apply bind_Some in H as ([[head1 m1] err] & Hbody & H).
  destruct (loop_body_flow _ _ _ _ _ _ _ Hbody) as [Hoom Herr].
  destruct err as [r|].
  - injection H as <- <- <-.
    destruct (Herr r eq_refl) as [(-> & Hq & He)|[-> Ht]]; [left|by right].
    split; [done|]. exists prop. split_and!; [left|done|done].
  - destruct (IH _ _ _ _ _ H) as [(-> & p & Hp & Hq & He)|[-> Ht]].
    + left. split; [done|]. exists p. split_and!; [by right|done|done].
    + right. auto.
Qed.

Lemma for_each_property_ok np props : ∀ head m,
  never_fails m →
  Forall (fun p => qualifies p → ¬ c_empty (mode_name p)) props →
  ∃ new m', for_each_property np props (String.length PREFIX) head m
              = Some (head ++ new, m', None) ∧
            info <$> new = expected_table np props ∧
            never_fails m'.
Proof.
  unfold expected_table.
  induction props as [|prop rest IH]; intros head m Hm Hne; cbn -[String.length].
  - exists [], m. by rewrite app_nil_r.
  - apply Forall_cons in Hne as [Hp Hrest].
    destruct (loop_body_ok np prop head m Hm Hp) as (new1 & m1 & -> & Hnew1 & Hm1).
    cbn -[String.length].
    destruct (IH (head ++ new1) m1 Hm1 Hrest) as (new2 & m2 & -> & Hnew2 & Hm2).
    exists (new1 ++ new2), m2. rewrite (assoc_L (++)). split_and!; [done| |done].
    rewrite fmap_app, Hnew1, Hnew2.
    rewrite filter_cons, filter_nil.
    destruct (decide (qualifies prop)); cbn; [destruct (entry_of np prop)|]; done.
Qed.

Lemma release_all_owns L0 head : ∀ m,
  owns L0 head m →
  ∃ m', release_all head m = Some m' ∧ live m' = L0 ∧ oom m' = oom m.
Proof.
  induction head as [|n next IH]; intros m (Hnd & Hdisj & Hlive); cbn.
  - exists m. split_and!; [done| |done]. rewrite Hlive. cbn. set_solver.
  - unfold owned in *. cbn in Hnd, Hdisj, Hlive.
    apply NoDup_cons in Hnd as [Hn1 Hnd].
    destruct (mode_at n) as [|b2]; cbn in *.
    + rewrite kfree_live by (rewrite Hlive; set_solver). cbn.
      edestruct (IH {| live := live m ∖ {[info_at n]}; oom := oom m |})
        as (m' & -> & ? & ?); [|by eauto].
      split_and!; [done| |].
      * intros b Hb. apply Hdisj. by right.
      * cbn. rewrite Hlive. specialize (Hdisj (info_at n)). set_solver.
    + apply NoDup_cons in Hnd as [Hn2 Hnd].
      rewrite kfree_live by (rewrite Hlive; set_solver). cbn.
      rewrite kfree_live by (cbn; rewrite Hlive; set_solver). cbn.
      edestruct (IH {| live := (live m ∖ {[b2]}) ∖ {[info_at n]}; oom := oom m |})
        as (m' & -> & ? & ?); [|by eauto].
      split_and!; [done| |].
      * intros b Hb. apply Hdisj. by do 2 right.
      * cbn. rewrite Hlive.
        pose proof (Hdisj (info_at n)). pose proof (Hdisj b2). set_solver.
Qed.

(** ** What the loop's tests mean *)

Lemma qualifies_prefix p : qualifies p ↔ ∃ n, name p = String.append PREFIX n.
Proof.
  unfold qualifies, strncmp. split.
  - intros H. exists (mode_name p). revert H. unfold mode_name, ptr_add, chars.
    destruct (name p) as [|c0 [|c1 [|c2 [|c3 [|c4 t]]]]]; cbn.
    all: unfold char_at; cbn.
    all: repeat (case_decide; subst; try done).
    intros _. by rewrite drop_0, string_of_list_ascii_of_string.
  - intros [n ->]. by vm_compute.
Qed.

Lemma mode_name_prefix p n : name p = String.append PREFIX n → mode_name p = n.
Proof.
  intros H. unfold mode_name, ptr_add, chars. rewrite H.
  change (string_of_list_ascii (list_ascii_of_string n) = n).
  apply string_of_list_ascii_of_string.
Qed.

Lemma c_empty_cstr s : cstr s → c_empty s ↔ s = EmptyString.
Proof.
  unfold cstr, c_empty, char_at, chars. destruct s as [|c s]; cbn; [done|].
  intros H. split; [|done]. intros ->. exfalso. apply H. left.
Qed.

Lemma of_find_property_own np p :
  NoDup (name <$> np) → p ∈ np → of_find_property np (name p) = Some p.
Proof.
  unfold of_find_property. induction np as [|q rest IH]; intros Hnd Hp.
  - by apply not_elem_of_nil in Hp.
  - cbn in Hnd. apply NoDup_cons in Hnd as [Hq Hnd]. cbn.
    destruct (decide (strcmp (name q) (name p) = 0)) as [E|E].
    + apply strcmp_eq in E. apply elem_of_cons in Hp as [->|Hp]; [done|].
      exfalso. apply Hq. rewrite E. apply list_elem_of_fmap. by exists p.
    + apply elem_of_cons in Hp as [->|Hp]; [by rewrite strcmp_eq in E|].
      specialize (IH Hnd Hp).
      destruct (list_find _ rest) as [[j x]|]; [|done]. cbn in *. done.
Qed.

Lemma missing_low_own np p :
  NoDup (name <$> np) → p ∈ np → missing_low np p ↔ value p = [].
Proof.
  intros Hnd Hp. unfold missing_low, of_property_read_u32, of_property_read_u32_index.
  rewrite (of_find_property_own _ _ Hnd Hp). cbn.
  destruct (value p) as [|v vs]; cbn; done.
Qed.

Lemma entry_of_None np p : entry_of np p = None ↔ missing_low np p.
Proof.
  unfold entry_of, missing_low.
  destruct (of_property_read_u32 np (name p)); cbn; done.
Qed.

Lemma length_omap_entry_of np (l : list property) :
  (length (omap (entry_of np) l) + length (filter (missing_low np) l) = length l)%nat.
Proof.
  induction l as [|p l IH]; [done|]. rewrite filter_cons. cbn.
  destruct (entry_of np p) eqn:E.
  - rewrite decide_False; [cbn; lia|]. rewrite <- entry_of_None. congruence.
  - rewrite decide_True by (by apply entry_of_None). cbn. lia.
Qed.

Lemma names_omap_entry_of np (l : list property) :
  mode <$> omap (entry_of np) l =
  mode_name <$> filter (fun p => ¬ missing_low np p) l.
Proof.
  induction l as [|p l IH]; [done|]. rewrite filter_cons. cbn.
  destruct (entry_of np p) as [e|] eqn:E.
  - rewrite decide_True by (rewrite <- entry_of_None; congruence).
    cbn. rewrite IH. f_equal.
    unfold entry_of in E. destruct (of_property_read_u32 np (name p)); [|done].
    cbn in E. by injection E as <-.
  - rewrite decide_False; [done|]. intros H. apply H. by apply entry_of_None.
Qed.

(** * The specification's statements *)

(** ** Resolution *)

(** On a list that holds two entries of one name with different magics,
    which [reboot_mode_register] never builds, the scan returns the first:
    the request "re/covery" resolves to 5 here. *)
Lemma resolve_first_of_duplicates :
  let head := [ {| mode := "re-covery"; magic := 5 |};
                {| mode := "re-covery"; magic := 0x2A |} ] in
  {| mode := "re-covery"; magic := 0x2A |} ∈ head ∧
  no_entry_named head "re/covery" ∧
  get_reboot_mode_magic head (Some "re/covery"%string) = Some 5 ∧
  get_reboot_mode_magic head (Some "re/covery"%string) ≠ Some 0x2A.
Proof.
  cbv zeta. split_and!.
  - right. left.
  - compute_done.
  - by vm_compute.
  - by vm_compute.
Qed.

(** On any list of entries whose first entry named "re-covery" has magic
    0x2A, each of the requests "re/covery", "re covery" and "re,covery"
    that no entry's name equals verbatim is turned into "re-covery" and
    resolves to 0x2A by the second scan. *)
Lemma resolve_separators (l1 l2 : list mode_info) (e : mode_info) (cmd : string) :
  no_entry_named l1 "re-covery" →
  mode e = "re-covery"%string → magic e = 0x2A →
  cmd ∈ ["re/covery"; "re covery"; "re,covery"]%string →
  no_entry_named (l1 ++ e :: l2) cmd →
  hyphenate cmd = "re-covery"%string ∧
  get_reboot_mode_magic (l1 ++ e :: l2) (Some cmd) = Some 0x2A.
Proof.
  intros Hl1 He Hm Hcmd Hno.
  assert (hyphenate cmd = "re-covery"%string ∧ cstr cmd ∧
          (String.length cmd < sizeof_cmd_)%nat) as (Hh & Hc & Hlen).
  { repeat (apply elem_of_cons in Hcmd as [->|Hcmd]).
    1-3: split_and!; [by vm_compute | compute_done | compute_done].
    by apply not_elem_of_nil in Hcmd. }
  split; [done|]. rewrite <- Hm.
  apply resolve_normalized; try done; by rewrite Hh.
Qed.

Lemma resolve_separators_witness :
  no_entry_named [ {| mode := "normal"; magic := 7 |} ] "re-covery" ∧
  no_entry_named hyphen_table "re covery" ∧
  hyphenate "re covery" = "re-covery"%string ∧
  get_reboot_mode_magic hyphen_table (Some "re covery"%string) = Some 0x2A.
Proof.
  split; [compute_done|]. split; [compute_done|].
  apply (resolve_separators [ {| mode := "normal"; magic := 7 |} ]
           [ {| mode := "re-covery"; magic := 9 |} ]
           {| mode := "re-covery"; magic := 0x2A |} "re covery").
  - compute_done.
  - reflexivity.
  - reflexivity.
  - compute_done.
  - compute_done.
Defined.

(** C2, as stated, fails: "re/covery" becomes "re-covery", which is not the
    name "recovery"; with the table of the claim the request finds nothing. *)
Lemma resolve_recovery_counterexample :
  let head := [ {| mode := "recovery"; magic := 0x1 |} ] in
  {| mode := "recovery"; magic := 0x1 |} ∈ head ∧
  no_entry_named head "re/covery" ∧
  get_reboot_mode_magic head (Some "re/covery"%string) = Some 0 ∧
  get_reboot_mode_magic head (Some "re/covery"%string) ≠ Some 0x1.
Proof.
  cbv zeta. split_and!.
  - left.
  - compute_done.
  - by vm_compute.
  - by vm_compute.
Qed.

(** C2 (amended): for any table whose first entry named "re-covery" has magic
    0x1 and which has no entry named "re/covery", the request "re/covery"
    resolves to 0x1 by the second scan, the slash having become a hyphen. *)
Theorem resolve_slash_to_hyphen (l1 l2 : list mode_info) (e : mode_info) :
  no_entry_named l1 "re-covery" →
  mode e = "re-covery"%string → magic e = 0x1 →
  no_entry_named (l1 ++ e :: l2) "re/covery" →
  match_mode (l1 ++ e :: l2) "re/covery" = None ∧
  get_reboot_mode_magic (l1 ++ e :: l2) (Some "re/covery"%string) = Some 0x1.
Proof.
  intros Hl1 He Hm Hno. split; [by apply match_mode_no_entry|].
  rewrite <- Hm. apply resolve_normalized; try done; compute_done.
Qed.

Lemma resolve_slash_to_hyphen_witness :
  let head := [ {| mode := "recovery"; magic := 5 |};
                {| mode := "re-covery"; magic := 0x1 |} ] in
  no_entry_named head "re/covery" ∧
  match_mode head "re/covery" = None ∧
  get_reboot_mode_magic head (Some "re/covery"%string) = Some 0x1.
Proof.
  cbv zeta. split; [compute_done|].
  apply (resolve_slash_to_hyphen [ {| mode := "recovery"; magic := 5 |} ] []
           {| mode := "re-covery"; magic := 0x1 |}).
  - compute_done.
  - reflexivity.
  - reflexivity.
  - compute_done.
Defined.

(** C3, as stated, fails: the first scan does not look at the length.  The
    node below registers an entry whose name has 110 characters; the request
    of that name, 111 bytes with its terminator, resolves to the entry's
    magic and not to 0. *)
Lemma resolve_overlong_counterexample :
  let np := [ prop_of ("mode-" +:+ long_a) [7] ] in
  ∃ reboot,
    registered np = Some reboot ∧
    table reboot = [ {| mode := long_a; magic := 7 |} ] ∧
    cstr long_a ∧
    (sizeof_cmd_ < String.length long_a + 1)%nat ∧
    get_reboot_mode_magic (table reboot) (Some long_a) = Some 7 ∧
    get_reboot_mode_magic (table reboot) (Some long_a) ≠ Some 0.
Proof.
  cbv zeta. eexists. split; [by vm_compute|].
  split_and!; [by vm_compute | compute_done | compute_done
              | by vm_compute | by vm_compute].
Qed.

(** C3 (amended): for every table and every requested mode string longer than
    110 bytes with its terminator that no entry's name equals verbatim, the
    lookup returns 0 (not found) whatever else the table holds; no store
    falls outside [cmd_], which ends up holding the first 109 characters of
    the request, unchanged, and a terminator: no replacement took place. *)
Theorem resolve_overlong (head : list mode_info) (cmd : string) :
  cstr cmd →
  (sizeof_cmd_ < String.length cmd + 1)%nat →
  no_entry_named head cmd →
  let cmd_ := (Some <$> take (sizeof_cmd_ - 1) (chars cmd)) ++ [Some NUL] in
  get_reboot_mode_magic head (Some cmd) = Some 0 ∧
  get_reboot_mode_magic_frame head (Some cmd) = Some (0, cmd_) ∧
  length cmd_ = sizeof_cmd_ ∧
  c_str cmd_ = Some (string_of_list_ascii (take (sizeof_cmd_ - 1) (chars cmd))).
Proof.
  intros Hc Hlen Hno cmd_.
  assert (get_reboot_mode_magic_frame head (Some cmd) = Some (0, cmd_)) as Hf.
  { apply get_reboot_mode_magic_overlong; [done|lia|by apply match_mode_no_entry]. }
  split_and!.
  - unfold get_reboot_mode_magic. by rewrite Hf.
  - done.
  - subst cmd_. rewrite length_app, length_fmap, length_take, length_chars.
    change (length [Some NUL]) with 1%nat. unfold sizeof_cmd_ in *. lia.
  - subst cmd_. apply c_str_spec. intros Hin. apply Hc.
    by eapply subseteq_take.
Qed.

Lemma resolve_overlong_witness :
  let head := [ {| mode := hyphenate ("/" +:+ long_a); magic := 7 |};
                {| mode := hyphenate (string_of_list_ascii
                                          (take 109 (chars ("/" +:+ long_a))));
                   magic := 8 |} ] in
  cstr ("/" +:+ long_a) ∧
  no_entry_named head ("/" +:+ long_a) ∧
  get_reboot_mode_magic head (Some ("/" +:+ long_a)) = Some 0.
Proof.
  cbv zeta. split; [compute_done|]. split; [compute_done|].
  apply (resolve_overlong
           [ {| mode := hyphenate ("/" +:+ long_a); magic := 7 |};
             {| mode := hyphenate (string_of_list_ascii
                                          (take 109 (chars ("/" +:+ long_a))));
                   magic := 8 |} ] ("/" +:+ long_a)).
  - compute_done.
  - compute_done.
  - compute_done.
Defined.

(** C10: the first scan does not depend on the length of the request: for
    every table and every requested string, of any length, if some entry's
    name equals the request verbatim then the lookup returns the magic of
    the first such entry, and [cmd_] is never written; only the second
    scan depends on the request fitting [cmd_]. *)
Theorem exact_match_any_length (head : list mode_info) (cmd : string) :
  (∃ x, x ∈ head ∧ mode x = cmd) →
  ∃ l1 e l2,
    head = l1 ++ e :: l2 ∧ no_entry_named l1 cmd ∧ mode e = cmd ∧
    get_reboot_mode_magic head (Some cmd) = Some (magic e) ∧
    get_reboot_mode_magic_frame head (Some cmd)
      = Some (magic e, replicate sizeof_cmd_ None).
Proof.
  intros (x & Hx & Hm).
  destruct (match_mode head cmd) as [m|] eqn:E.
  - destruct (match_mode_Some _ _ _ E) as (l1 & e & l2 & -> & Hl1 & He & <-).
    exists l1, e, l2.
    assert (get_reboot_mode_magic_frame (l1 ++ e :: l2) (Some cmd)
            = Some (magic e, replicate sizeof_cmd_ None)) as Hf.
    { rewrite get_reboot_mode_magic_frame_eq.
      change (default "normal"%string (Some cmd)) with cmd. cbv zeta. by rewrite E. }
    split_and!; try done.
    + by apply Forall_forall.
    + unfold get_reboot_mode_magic. by rewrite Hf.
  - exfalso. by apply (proj1 (match_mode_None _ _) E x).
Qed.

Lemma exact_match_any_length_witness :
  let head := [ {| mode := "normal"; magic := 1 |};
                {| mode := long_a; magic := 7 |};
                {| mode := long_a; magic := 8 |} ] in
  (sizeof_cmd_ < String.length long_a + 1)%nat ∧
  ∃ l1 e l2,
    head = l1 ++ e :: l2 ∧ no_entry_named l1 long_a ∧ mode e = long_a ∧
    get_reboot_mode_magic head (Some long_a) = Some (magic e) ∧
    get_reboot_mode_magic_frame head (Some long_a)
      = Some (magic e, replicate sizeof_cmd_ None).
Proof.
  cbv zeta. split; [compute_done|].
  apply (exact_match_any_length
           [ {| mode := "normal"; magic := 1 |};
             {| mode := long_a; magic := 7 |};
             {| mode := long_a; magic := 8 |} ] long_a).
  exists {| mode := long_a; magic := 7 |}. split; [|reflexivity].
  right. left.
Defined.

(** C5: two entries of one name may be in the table together, and the lookup
    returns the first in insertion order: after A with magic 1 and then A
    with magic 2 have been added at the tail of a table that has no entry
    named A, both are in the table and the request A resolves to 1. *)
Theorem first_match_wins (head0 : list node) (n1 n2 : node) (A : string) :
  no_entry_named (info <$> head0) A →
  mode (info n1) = A → magic (info n1) = 1 →
  mode (info n2) = A → magic (info n2) = 2 →
  let reboot := {| head := list_add_tail n2 (list_add_tail n1 head0);
                   rb_lock := false; reboot_notifier := true |} in
  table reboot = (info <$> head0) ++ [info n1; info n2] ∧
  get_reboot_mode_magic (table reboot) (Some A) = Some 1.
Proof.
  intros H0 Hn1 Hm1 Hn2 Hm2 reboot.
  assert (table reboot = (info <$> head0) ++ [info n1; info n2]) as Ht.
  { unfold table, reboot, list_add_tail. cbn.
    by rewrite !fmap_app, <- (assoc_L (++)). }
  split; [done|]. rewrite Ht. unfold get_reboot_mode_magic.
  rewrite get_reboot_mode_magic_frame_eq.
  change (default "normal"%string (Some A)) with A. cbv zeta.
  rewrite (match_mode_first_named _ (info n1) [info n2] A H0 Hn1). cbn. by rewrite Hm1.
Qed.

Lemma first_match_wins_witness :
  let n1 := {| info_at := 0%nat; mode_at := Slab 1%nat; info := {| mode := "A"; magic := 1 |} |} in
  let n2 := {| info_at := 2%nat; mode_at := Slab 3%nat; info := {| mode := "A"; magic := 2 |} |} in
  let reboot := {| head := list_add_tail n2 (list_add_tail n1 []);
                   rb_lock := false; reboot_notifier := true |} in
  table reboot = [info n1; info n2] ∧
  get_reboot_mode_magic (table reboot) (Some "A"%string) = Some 1.
Proof.
  cbv zeta.
  apply (first_match_wins []
           {| info_at := 0%nat; mode_at := Slab 1%nat; info := {| mode := "A"; magic := 1 |} |}
           {| info_at := 2%nat; mode_at := Slab 3%nat; info := {| mode := "A"; magic := 2 |} |}
           "A").
  - compute_done.
  - reflexivity.
  - reflexivity.
  - reflexivity.
  - reflexivity.
Defined.

(** C6: for every table, an absent request resolves as the request "normal"
    does, and the lookup does return a result. *)
Theorem resolve_absent_is_normal (head : list mode_info) :
  get_reboot_mode_magic head None = get_reboot_mode_magic head (Some "normal"%string) ∧
  get_reboot_mode_magic_frame head None
    = get_reboot_mode_magic_frame head (Some "normal"%string) ∧
  is_Some (get_reboot_mode_magic head None).
Proof.
  split_and!; [reflexivity | reflexivity | apply get_reboot_mode_magic_total].
Qed.

(** ** The notifier callback *)

(** C8: every invocation of the notifier callback returns, and returns
    NOTIFY_DONE, which has no stop bit, whether or not a magic was found;
    the write callback is invoked exactly when the magic is not 0. *)
Theorem notify_always_done (reboot : reboot_mode_driver) (mode_ : Z)
  (cmd : option string) :
  ∃ magic_,
    get_reboot_mode_magic (table reboot) cmd = Some magic_ ∧
    reboot_mode_notify reboot mode_ cmd =
      Some (NOTIFY_DONE,
            [MutexLock; MutexUnlock] ++
            (if decide (magic_ ≠ 0) then [CallWrite magic_] else [])) ∧
    Z.land NOTIFY_DONE NOTIFY_STOP_MASK = 0.
Proof.
  destruct (get_reboot_mode_magic_total (table reboot) cmd) as [m Hm].
  exists m. unfold reboot_mode_notify. rewrite Hm. done.
Qed.

(** C9, as stated, fails: the first scan comes first and each scan stops at
    its first hit.  The node below registers the table [("a,b", 3);
    ("a-b", 0)]; the request "a,b" matches the entry of magic 0 after
    normalisation, and the write callback is invoked all the same, with the
    magic 3 of the entry the request equals verbatim. *)
Lemma zero_magic_counterexample :
  let np := [ prop_of "mode-a,b" [3]; prop_of "mode-a-b" [0] ] in
  let e := {| mode := "a-b"; magic := 0 |} in
  ∃ reboot,
    registered np = Some reboot ∧
    table reboot = [ {| mode := "a,b"; magic := 3 |}; e ] ∧
    e ∈ table reboot ∧ magic e = 0 ∧ mode e = hyphenate "a,b" ∧
    reboot_mode_notify reboot 0 (Some "a,b"%string)
      = Some (NOTIFY_DONE, [MutexLock; MutexUnlock; CallWrite 3]).
Proof.
  cbv zeta. eexists. split; [by vm_compute|].
  split_and!; try by vm_compute.
  right. left.
Qed.

(** C9 (amended): the lookup returns 0 both for "not found" and for a stored
    magic of 0, so whenever the entry a request resolves to has magic 0 the
    write callback is not invoked.  The request resolves to the first entry
    whose name equals it verbatim or, when no name equals it and it fits
    [cmd_], to the first entry whose name equals the request with its
    separators turned into hyphens.  What the callback then does is what it
    does in any run where the lookup returns 0. *)
Theorem zero_magic_never_written (reboot : reboot_mode_driver) (mode_ : Z)
  (cmd : option string) (l1 l2 : list mode_info) (e : mode_info) :
  table reboot = l1 ++ e :: l2 →
  magic e = 0 →
  (mode e = default "normal"%string cmd ∧
   no_entry_named l1 (default "normal"%string cmd)) ∨
  (cstr (default "normal"%string cmd) ∧
   (String.length (default "normal"%string cmd) < sizeof_cmd_)%nat ∧
   no_entry_named (table reboot) (default "normal"%string cmd) ∧
   mode e = hyphenate (default "normal"%string cmd) ∧
   no_entry_named l1 (hyphenate (default "normal"%string cmd))) →
  get_reboot_mode_magic (table reboot) cmd = Some 0 ∧
  reboot_mode_notify reboot mode_ cmd = Some (NOTIFY_DONE, [MutexLock; MutexUnlock]) ∧
  ∀ reboot', get_reboot_mode_magic (table reboot') cmd = Some 0 →
             reboot_mode_notify reboot' mode_ cmd = reboot_mode_notify reboot mode_ cmd.
Proof.
  intros Ht Hm Hsel.
  assert (get_reboot_mode_magic (table reboot) cmd = Some 0) as H0.
  { transitivity (get_reboot_mode_magic (table reboot) (Some (default "normal"%string cmd))).
    { by destruct cmd. }
    rewrite <- Hm.
    destruct Hsel as [[He Hl1]|(Hc & Hlen & Hno & He & Hl1)].
    - rewrite Ht. unfold get_reboot_mode_magic.
      rewrite get_reboot_mode_magic_frame_eq.
      change (default "normal"%string (Some ?c)) with c. cbv zeta.
      by rewrite (match_mode_first_named _ e l2 _ Hl1 He).
    - rewrite Ht in *. by apply resolve_normalized. }
  assert (∀ r, get_reboot_mode_magic (table r) cmd = Some 0 →
               reboot_mode_notify r mode_ cmd
               = Some (NOTIFY_DONE, [MutexLock; MutexUnlock])) as Hn.
  { intros r Hr. unfold reboot_mode_notify. by rewrite Hr. }
  split_and!; [done | by apply Hn |].
  intros reboot' Hr. by rewrite !Hn.
Qed.

Lemma zero_magic_never_written_witness :
  let n := {| info_at := 0%nat; mode_at := Slab 1%nat;
              info := {| mode := "a-b"; magic := 0 |} |} in
  let reboot := {| head := [n]; rb_lock := false; reboot_notifier := true |} in
  no_entry_named (table reboot) "a b" ∧
  hyphenate "a b" = "a-b"%string ∧
  get_reboot_mode_magic (table reboot) (Some "a b"%string) = Some 0 ∧
  reboot_mode_notify reboot 1 (Some "a b"%string)
    = Some (NOTIFY_DONE, [MutexLock; MutexUnlock]).
Proof.
  cbv zeta. split; [compute_done|]. split; [reflexivity|].
  refine (let H := zero_magic_never_written
            {| head := [ {| info_at := 0%nat; mode_at := Slab 1%nat;
                            info := {| mode := "a-b"; magic := 0 |} |} ];
               rb_lock := false; reboot_notifier := true |}
            1 (Some "a b"%string) [] [] {| mode := "a-b"; magic := 0 |}
            eq_refl eq_refl _ in conj (proj1 H) (proj1 (proj2 H))).
  right. split_and!.
  - compute_done.
  - compute_done.
  - compute_done.
  - reflexivity.
  - compute_done.
Defined.

(** ** Registration *)

Lemma owns_initial head0 m : head0 = [] → owns (live m) head0 m.
Proof.
  intros ->. unfold owns, owned. cbn. split_and!.
  - apply NoDup_nil_2.
  - intros b Hb. by apply not_elem_of_nil in Hb.
  - set_solver.
Qed.

Example register_empty_name :
  outcome (reboot_mode_register fresh_driver
             (Some (sample_node ++ [prop_of "mode-" [4]])) (slab_of []))
  = Some (- EINVAL, [], false, []).
Proof. by vm_compute. Qed.

Example register_out_of_memory :
  outcome (reboot_mode_register fresh_driver (Some sample_node)
             (slab_of [false; false; false; true]))
  = Some (- ENOMEM, [], false, []).
Proof. by vm_compute. Qed.

(** C7, as stated, fails: an allocation may fail, and then a node whose
    properties all have names and values is not registered. *)
Lemma register_counterexample :
  let np := [ prop_of "mode-recovery" [1] ] in
  Forall (fun p => qualifies p → ¬ c_empty (mode_name p)) np ∧
  length (filter qualifies np) = 1%nat ∧
  outcome (reboot_mode_register fresh_driver (Some np) (slab_of [true]))
  = Some (- ENOMEM, [], false, []).
Proof.
  cbv zeta. split_and!.
  - compute_done.
  - by vm_compute.
  - by vm_compute.
Qed.

(** C7 (amended): for every device node with N properties carrying the
    prefix, none of them with an empty name, and provided no allocation
    fails, registration succeeds; the table holds, in the order of the
    node's properties, one entry per such property, of magic
    [(high << 32) | low], except that a property whose low 32-bit value
    cannot be read under its name is skipped without error, so that the
    table has N entries less the skipped ones.  Where the names of the
    node's properties are distinct, the low value cannot be read exactly
    when the property's own value has no cell. *)
Theorem register_builds_table (reboot : reboot_mode_driver)
  (np : list property) (m : slab) :
  never_fails m →
  Forall (fun p => qualifies p → ¬ c_empty (mode_name p)) np →
  ∃ reboot' m',
    reboot_mode_register reboot (Some np) m = Some (0, reboot', m') ∧
    reboot_notifier reboot' = true ∧
    table reboot' = expected_table np np ∧
    mode <$> table reboot'
      = mode_name <$> filter (fun p => ¬ missing_low np p) (filter qualifies np) ∧
    length (table reboot')
      = (length (filter qualifies np)
         - length (filter (missing_low np) (filter qualifies np)))%nat ∧
    (NoDup (name <$> np) → ∀ p, p ∈ np → missing_low np p ↔ value p = []).
Proof.
  intros Hm Hne. unfold reboot_mode_register.
  destruct (for_each_property_ok np np [] m Hm Hne) as (new & m' & -> & Hnew & _).
  cbn -[String.length]. eexists _, _. split; [done|].
  unfold table. cbn [head reboot_notifier]. rewrite Hnew.
  split_and!; try done.
  - apply names_omap_entry_of.
  - unfold expected_table.
    pose proof (length_omap_entry_of np (filter qualifies np)). lia.
  - intros Hnd p Hp. by apply missing_low_own.
Qed.

Lemma register_builds_table_witness :
  never_fails (slab_of [false]) ∧
  length (filter qualifies sample_node) = 3%nat ∧
  ∃ reboot' m',
    reboot_mode_register fresh_driver (Some sample_node) (slab_of [false])
      = Some (0, reboot', m') ∧
    reboot_notifier reboot' = true ∧
    table reboot' = expected_table sample_node sample_node ∧
    mode <$> table reboot'
      = mode_name <$> filter (fun p => ¬ missing_low sample_node p)
                        (filter qualifies sample_node) ∧
    length (table reboot')
      = (length (filter qualifies sample_node)
         - length (filter (missing_low sample_node) (filter qualifies sample_node)))%nat ∧
    (NoDup (name <$> sample_node) →
     ∀ p, p ∈ sample_node → missing_low sample_node p ↔ value p = []).
Proof.
  split; [compute_done|]. split; [by vm_compute|].
  apply (register_builds_table fresh_driver sample_node (slab_of [false])).
  - compute_done.
  - compute_done.
Defined.

Example register_sample :
  outcome (reboot_mode_register fresh_driver (Some sample_node) (slab_of []))
  = Some (0, [ {| mode := "recovery"; magic := 1 |};
               {| mode := "bootloader"; magic := 0x300000002 |} ],
          true, [2; 1; 0]%nat).
Proof. by vm_compute. Qed.

(** * Further properties of the lookup *)

Lemma get_reboot_mode_magic_default head cmd :
  get_reboot_mode_magic head cmd
  = get_reboot_mode_magic head (Some (default "normal"%string cmd)).
Proof. by destruct cmd. Qed.

Lemma get_reboot_mode_magic_exact l1 e l2 (c : string) :
  no_entry_named l1 c → mode e = c →
  get_reboot_mode_magic (l1 ++ e :: l2) (Some c) = Some (magic e).
Proof.
  intros Hl1 He. unfold get_reboot_mode_magic.
  rewrite get_reboot_mode_magic_frame_eq.
  change (default "normal"%string (Some c)) with c. cbv zeta.
  by rewrite (match_mode_first_named _ e l2 _ Hl1 He).
Qed.

Lemma get_reboot_mode_magic_cstr head (c : string) :
  cstr c → no_entry_named head c →
  get_reboot_mode_magic head (Some c)
  = Some (if decide (String.length c < sizeof_cmd_)%nat
          then default 0 (match_mode head (hyphenate c)) else 0).
Proof.
  intros Hc Hno. unfold get_reboot_mode_magic. case_decide as Hlen.
  - rewrite get_reboot_mode_magic_fits; [done|done|done|by apply match_mode_no_entry].
  - rewrite get_reboot_mode_magic_overlong; [done|done|lia|by apply match_mode_no_entry].
Qed.

Lemma dash_not_separator c : ¬ separator (dash c).
Proof.
  unfold dash, separator. case_decide as H; [|done].
  intros [?|[?|?]]; done.
Qed.

Lemma dash_id c : ¬ separator c → dash c = c.
Proof. unfold dash, separator. intros H. by rewrite decide_False. Qed.

Lemma dash_idemp c : dash (dash c) = dash c.
Proof. apply dash_id, dash_not_separator. Qed.

Lemma dash_NUL c : c ≠ NUL → dash c ≠ NUL.
Proof. unfold dash. case_decide; [done|done]. Qed.

Lemma chars_hyphenate s : chars (hyphenate s) = dash <$> chars s.
Proof. unfold hyphenate. apply chars_of_list. Qed.

Lemma hyphenate_idemp s : hyphenate (hyphenate s) = hyphenate s.
Proof.
  apply chars_inj. rewrite !chars_hyphenate, <- list_fmap_compose.
  apply list_fmap_ext. intros _ c _. apply dash_idemp.
Qed.

Lemma hyphenate_length s : String.length (hyphenate s) = String.length s.
Proof. by rewrite <- !length_chars, chars_hyphenate, length_fmap. Qed.

Lemma hyphenate_cstr s : cstr s → cstr (hyphenate s).
Proof.
  unfold cstr. rewrite chars_hyphenate. intros H Hin.
  apply list_elem_of_fmap in Hin as (c & Hc & Hin).
  destruct (decide (c = NUL)) as [->|Hne]; [done|].
  by apply (dash_NUL c Hne).
Qed.

Lemma hyphenate_id s :
  Forall (fun c => ¬ separator c) (chars s) → hyphenate s = s.
Proof.
  intros H. apply chars_inj. rewrite chars_hyphenate.
  rewrite <- (list_fmap_id (chars s)) at 2.
  apply list_fmap_ext. intros i c Hc. apply dash_id.
  rewrite Forall_forall in H. apply H. by eapply list_elem_of_lookup_2.
Qed.

(** X1: when the entry a request resolves to has a magic other than 0, the
    callback takes the lock, releases it, and then calls the write callback
    once, with that entry's magic.  The request (NULL standing for
    "normal") resolves to the first entry whose name equals it or, when no
    name equals it and it fits [cmd_], to the first entry whose name is the
    request with its separators turned into hyphens. *)
Theorem notify_writes_resolved (reboot : reboot_mode_driver) (mode_ : Z)
  (cmd : option string) (l1 l2 : list mode_info) (e : mode_info) :
  table reboot = l1 ++ e :: l2 →
  magic e ≠ 0 →
  (mode e = default "normal"%string cmd ∧
   no_entry_named l1 (default "normal"%string cmd)) ∨
  (cstr (default "normal"%string cmd) ∧
   (String.length (default "normal"%string cmd) < sizeof_cmd_)%nat ∧
   no_entry_named (table reboot) (default "normal"%string cmd) ∧
   mode e = hyphenate (default "normal"%string cmd) ∧
   no_entry_named l1 (hyphenate (default "normal"%string cmd))) →
  reboot_mode_notify reboot mode_ cmd
  = Some (NOTIFY_DONE, [MutexLock; MutexUnlock; CallWrite (magic e)]).
Proof.
  intros Ht Hm Hsel. unfold reboot_mode_notify.
  rewrite get_reboot_mode_magic_default, Ht.
  destruct Hsel as [[He Hl1]|(Hc & Hlen & Hno & He & Hl1)].
  - rewrite get_reboot_mode_magic_exact by done. cbn. by rewrite decide_True.
  - rewrite Ht in Hno. rewrite resolve_normalized by done. cbn.
    by rewrite decide_True.
Qed.

Lemma notify_writes_resolved_witness :
  let reboot := {| head := [ {| info_at := 0%nat; mode_at := Rodata;
                                info := {| mode := "normal"; magic := 0x77 |} |} ];
                   rb_lock := false; reboot_notifier := true |} in
  table reboot = [ {| mode := "normal"; magic := 0x77 |} ] ∧
  reboot_mode_notify reboot 0 None
  = Some (NOTIFY_DONE, [MutexLock; MutexUnlock; CallWrite 0x77]).
Proof.
  cbv zeta. split; [reflexivity|].
  apply (notify_writes_resolved
           {| head := [ {| info_at := 0%nat; mode_at := Rodata;
                           info := {| mode := "normal"; magic := 0x77 |} |} ];
              rb_lock := false; reboot_notifier := true |}
           0 None [] [] {| mode := "normal"; magic := 0x77 |}).
  - reflexivity.
  - compute_done.
  - left. split; [reflexivity | compute_done].
Defined.

(** X2: a request that is no entry's name and either does not fit [cmd_] or
    is, with its separators turned into hyphens, no entry's name either,
    leads to no call of the write callback. *)
Theorem notify_not_found (reboot : reboot_mode_driver) (mode_ : Z)
  (cmd : option string) :
  cstr (default "normal"%string cmd) →
  no_entry_named (table reboot) (default "normal"%string cmd) →
  (sizeof_cmd_ ≤ String.length (default "normal"%string cmd))%nat ∨
  no_entry_named (table reboot) (hyphenate (default "normal"%string cmd)) →
  get_reboot_mode_magic (table reboot) cmd = Some 0 ∧
  reboot_mode_notify reboot mode_ cmd = Some (NOTIFY_DONE, [MutexLock; MutexUnlock]).
Proof.
  intros Hc Hno Hcase.
  assert (get_reboot_mode_magic (table reboot) cmd = Some 0) as H0.
  { rewrite get_reboot_mode_magic_default, get_reboot_mode_magic_cstr by done.
    case_decide as Hlen; [|done].
    destruct Hcase as [Hlong|Hn]; [lia|].
    by rewrite (proj2 (match_mode_no_entry _ _) Hn). }
  split; [done|]. unfold reboot_mode_notify. by rewrite H0.
Qed.

Lemma notify_not_found_witness :
  let reboot := {| head := [ {| info_at := 0%nat; mode_at := Rodata;
                                info := {| mode := "recovery"; magic := 1 |} |} ];
                   rb_lock := false; reboot_notifier := true |} in
  get_reboot_mode_magic (table reboot) (Some "re covery"%string) = Some 0 ∧
  reboot_mode_notify reboot 0 (Some "re covery"%string)
  = Some (NOTIFY_DONE, [MutexLock; MutexUnlock]).
Proof.
  cbv zeta.
  apply (notify_not_found
           {| head := [ {| info_at := 0%nat; mode_at := Rodata;
                           info := {| mode := "recovery"; magic := 1 |} |} ];
              rb_lock := false; reboot_notifier := true |}
           0 (Some "re covery"%string)).
  - compute_done.
  - compute_done.
  - right. compute_done.
Defined.

(** X3: a request without space, comma or slash is resolved by the first
    scan alone: if no entry's name equals it, the lookup returns 0 whatever
    its length. *)
Theorem resolve_without_separator (head : list mode_info) (cmd : string) :
  cstr cmd →
  Forall (fun c => ¬ separator c) (chars cmd) →
  no_entry_named head cmd →
  get_reboot_mode_magic head (Some cmd) = Some 0.
Proof.
  intros Hc Hsep Hno. rewrite get_reboot_mode_magic_cstr by done.
  case_decide; [|done]. rewrite (hyphenate_id _ Hsep).
  by rewrite (proj2 (match_mode_no_entry _ _) Hno).
Qed.

Lemma resolve_without_separator_witness :
  get_reboot_mode_magic hyphen_table (Some "recovery"%string) = Some 0.
Proof.
  apply (resolve_without_separator hyphen_table "recovery").
  - compute_done.
  - compute_done.
  - compute_done.
Defined.

(** X4: the lookup never makes a magic up: a result other than 0 is the
    magic of an entry of the table whose name is the request or, the
    request fitting [cmd_], the request with its separators turned into
    hyphens. *)
Theorem resolve_from_table (head : list mode_info) (cmd : string) (m : Z) :
  cstr cmd →
  get_reboot_mode_magic head (Some cmd) = Some m →
  m ≠ 0 →
  ∃ e, e ∈ head ∧ magic e = m ∧
       (mode e = cmd ∨
        ((String.length cmd < sizeof_cmd_)%nat ∧ mode e = hyphenate cmd)).
Proof.
  intros Hc Hres Hm.
  destruct (match_mode head cmd) as [m'|] eqn:E.
  - destruct (match_mode_Some _ _ _ E) as (l1 & e & l2 & -> & Hl1 & He & <-).
    rewrite (get_reboot_mode_magic_exact l1 e l2 cmd) in Hres;
      [|by apply Forall_forall|done].
    injection Hres as <-. exists e. split_and!; [|done|by left].
    apply elem_of_app. right. left.
  - apply match_mode_no_entry in E.
    rewrite get_reboot_mode_magic_cstr in Hres by done.
    case_decide as Hlen; [|by injection Hres as <-].
    destruct (match_mode head (hyphenate cmd)) as [m'|] eqn:E2;
      [|by injection Hres as <-].
    destruct (match_mode_Some _ _ _ E2) as (l1 & e & l2 & -> & Hl1 & He & <-).
    injection Hres as <-. exists e. split_and!; [|done|by right].
    apply elem_of_app. right. left.
Qed.

Lemma resolve_from_table_witness :
  ∃ e, e ∈ hyphen_table ∧ magic e = 0x2A ∧
       (mode e = "re,covery"%string ∨
        ((String.length "re,covery" < sizeof_cmd_)%nat ∧
         mode e = hyphenate "re,covery")).
Proof.
  apply (resolve_from_table hyphen_table "re,covery" 0x2A).
  - compute_done.
  - by vm_compute.
  - compute_done.
Defined.

(** X5: the bound of the second scan is exact.  For a request that no
    entry's name equals, and a table whose first entry named as the
    normalised request has a magic other than 0, the lookup returns that
    magic exactly when the request has at most 109 characters. *)
Theorem resolve_bound_exact (l1 l2 : list mode_info) (e : mode_info) (cmd : string) :
  cstr cmd →
  no_entry_named (l1 ++ e :: l2) cmd →
  no_entry_named l1 (hyphenate cmd) → mode e = hyphenate cmd →
  magic e ≠ 0 →
  get_reboot_mode_magic (l1 ++ e :: l2) (Some cmd) = Some (magic e)
  ↔ (String.length cmd ≤ 109)%nat.
Proof.
  intros Hc Hno Hl1 He Hm. rewrite get_reboot_mode_magic_cstr by done.
  unfold sizeof_cmd_. case_decide as Hlen.
  - rewrite (match_mode_first_named _ e l2 _ Hl1 He). cbn. split; [lia|done].
  - split; [|lia]. intros [= H0]. by rewrite <- H0 in Hm.
Qed.

Lemma resolve_bound_exact_witness :
  let c109 := string_of_list_ascii (" "%char :: replicate 108 "a"%char) in
  let e := {| mode := hyphenate c109; magic := 5 |} in
  String.length c109 = 109%nat ∧
  get_reboot_mode_magic [e] (Some c109) = Some 5.
Proof.
  cbv zeta. split; [by vm_compute|].
  apply (resolve_bound_exact [] []
           {| mode := hyphenate (string_of_list_ascii (" "%char :: replicate 108 "a"%char));
              magic := 5 |}
           (string_of_list_ascii (" "%char :: replicate 108 "a"%char))).
  - compute_done.
  - compute_done.
  - compute_done.
  - reflexivity.
  - compute_done.
  - compute_done.
Defined.

(** X6: requests that differ only in their separators resolve alike: two
    requests that fit [cmd_], are no entry's name, and become the same
    string once their separators are hyphens, get the same result. *)
Theorem resolve_separator_insensitive (head : list mode_info) (c1 c2 : string) :
  cstr c1 → cstr c2 →
  (String.length c1 < sizeof_cmd_)%nat →
  no_entry_named head c1 → no_entry_named head c2 →
  hyphenate c1 = hyphenate c2 →
  get_reboot_mode_magic head (Some c1) = get_reboot_mode_magic head (Some c2).
Proof.
  intros Hc1 Hc2 Hlen Hno1 Hno2 Hh.
  rewrite !get_reboot_mode_magic_cstr by done.
  assert (String.length c2 = String.length c1) as ->.
  { by rewrite <- (hyphenate_length c2), <- Hh, hyphenate_length. }
  by rewrite Hh.
Qed.

Lemma resolve_separator_insensitive_witness :
  get_reboot_mode_magic hyphen_table (Some "re covery"%string)
  = get_reboot_mode_magic hyphen_table (Some "re/covery"%string).
Proof.
  apply (resolve_separator_insensitive hyphen_table "re covery" "re/covery").
  - compute_done.
  - compute_done.
  - compute_done.
  - compute_done.
  - compute_done.
  - by vm_compute.
Defined.

(** X7: whatever the table and the request, NUL-free or not, the lookup
    returns without a store outside [cmd_] or a load of an indeterminate
    cell; [cmd_] keeps its 110 cells and is either untouched or holds a
    terminated string of at most 109 characters. *)
Theorem lookup_stays_in_cmd_ (head : list mode_info) (cmd : option string) :
  ∃ m cmd_,
    get_reboot_mode_magic_frame head cmd = Some (m, cmd_) ∧
    length cmd_ = sizeof_cmd_ ∧
    (cmd_ = replicate sizeof_cmd_ None ∨
     ∃ s, c_str cmd_ = Some s ∧ (String.length s < sizeof_cmd_)%nat).
Proof.
  rewrite get_reboot_mode_magic_frame_eq. cbv zeta.
  destruct (match_mode head _) as [m|].
  { eexists _, _. split; [done|]. split; [apply length_replicate | by left]. }
  set (ct := c_take (sizeof_cmd_ - 1) (chars (default "normal"%string cmd))).
  pose proof (c_take_no_NUL (sizeof_cmd_ - 1) (chars (default "normal"%string cmd))) as Hnul.
  pose proof (c_take_length (sizeof_cmd_ - 1) (chars (default "normal"%string cmd))) as Hlen.
  fold ct in Hnul, Hlen.
  assert (∀ l : list ascii, length l = length ct → NUL ∉ l →
            length ((Some <$> l) ++ Some NUL :: replicate (sizeof_cmd_ - S (length ct)) None)
            = sizeof_cmd_ ∧
            ∃ s, c_str ((Some <$> l) ++ Some NUL
                          :: replicate (sizeof_cmd_ - S (length ct)) None) = Some s ∧
                 (String.length s < sizeof_cmd_)%nat) as Hbuf.
  { intros l Hl Hn. split.
    - rewrite length_app, length_fmap. cbn [length]. rewrite length_replicate.
      unfold sizeof_cmd_ in *. lia.
    - exists (string_of_list_ascii l). split; [by apply c_str_spec|].
      rewrite <- length_chars, chars_of_list. unfold sizeof_cmd_ in *. lia. }
  case_decide.
  - eexists _, _. split; [done|].
    destruct (Hbuf (dash <$> ct)) as [Hl Hs].
    + by rewrite length_fmap.
    + intros Hin. apply list_elem_of_fmap in Hin as (c & Hc & Hin).
      destruct (decide (c = NUL)) as [->|Hne]; [done|]. by apply (dash_NUL c Hne).
    + split; [done | by right].
  - eexists _, _. split; [done|].
    destruct (Hbuf ct eq_refl Hnul) as [Hl Hs]. split; [done | by right].
Qed.

(** * Further properties of registration *)

Lemma loop_body_cases np prop head m head' m' err :
  loop_body np (String.length PREFIX) prop head m = Some (head', m', err) →
  match err with
  | None =>
      ∃ new, head' = head ++ new ∧
             info <$> new = omap (entry_of np) (filter qualifies [prop]) ∧
             (qualifies prop → ¬ missing_low np prop → ¬ c_empty (mode_name prop))
  | Some ret =>
      head' = head ∧ qualifies prop ∧
      (ret = - EINVAL → ¬ missing_low np prop ∧ c_empty (mode_name prop))
  end.
Proof.
  unfold loop_body. rewrite filter_cons, filter_nil. fold (qualifies prop).
  destruct (decide (qualifies prop)) as [Hq|Hq].
  2:{ rewrite decide_True by done. intros [= <- <- <-].
      exists []. by rewrite app_nil_r. }
  rewrite decide_False by (by intros ?).
  destruct (kzalloc_cases m) as [(rest & Hoom & ->)|[-> _]].
  { intros [= <- <- <-]. split_and!; [done|done|]. intros [=]. }
  cbn [omap list_omap]. unfold missing_low.
  destruct (of_property_read_u32 np (name prop)) as [magic_arg1|] eqn:Hlow.
  2:{ intros H. apply bind_Some in H as (m1 & _ & [= <- <- <-]).
      exists []. rewrite app_nil_r. unfold entry_of. rewrite Hlow. cbn.
      split_and!; [done|done|]. by intros _ []. }
  rewrite (entry_of_Some _ _ _ Hlow).
  unfold kstrdup_const. destruct (name_rodata prop).
  - case_decide as He.
    + intros H. apply bind_Some in H as (m1 & _ & H).
      apply bind_Some in H as (m2 & _ & [= <- <- <-]).
      split_and!; [done|done|]. intros _. split; [by intros [=] | done].
    + intros [= <- <- <-]. eexists [_]. split_and!; [done|done|]. by intros _ _.
  - set (m1 := {| live := _; oom := tail (oom m) |}).
    destruct (kzalloc_cases m1) as [(rest & Hoom & ->)|[-> _]].
    { cbn. intros H. apply bind_Some in H as (m2 & _ & [= <- <- <-]).
      split_and!; [done|done|]. intros [=]. }
    cbn [fmap option_fmap option_map]. case_decide as He.
    + intros H. apply bind_Some in H as (m2 & _ & H).
      apply bind_Some in H as (m3 & _ & [= <- <- <-]).
      split_and!; [done|done|]. intros _. split; [by intros [=] | done].
    + intros [= <- <- <-]. eexists [_]. split_and!; [done|done|]. by intros _ _.
Qed.

Lemma for_each_property_result np props : ∀ head m head' m',
  for_each_property np props (String.length PREFIX) head m = Some (head', m', None) →
  ∃ new, head' = head ++ new ∧
         info <$> new = expected_table np props ∧
         Forall (fun p => qualifies p → ¬ missing_low np p → ¬ c_empty (mode_name p))
                props.
Proof.
  unfold expected_table.
  induction props as [|prop rest IH]; intros head m head' m'; cbn -[String.length].
  - intros [= <- <-]. exists []. by rewrite app_nil_r.
  - intros H. apply bind_Some in H as ([[head1 m1] err] & Hbody & H).
    apply loop_body_cases in Hbody. destruct err as [r|]; [done|].
    destruct Hbody as (new1 & -> & Hnew1 & Hp).
    destruct (IH _ _ _ _ H) as (new2 & -> & Hnew2 & Hrest).
    exists (new1 ++ new2). rewrite (assoc_L (++)). split_and!; [done| |by constructor].
    rewrite fmap_app, Hnew1, Hnew2, !filter_cons, filter_nil.
    destruct (decide (qualifies prop)); cbn; [destruct (entry_of np prop)|]; done.
Qed.

Lemma for_each_property_einval np props : ∀ head m head' m',
  for_each_property np props (String.length PREFIX) head m
    = Some (head', m', Some (- EINVAL)) →
  ∃ p, p ∈ props ∧ qualifies p ∧ ¬ missing_low np p ∧ c_empty (mode_name p).
Proof.
  induction props as [|prop rest IH]; intros head m head' m'; cbn -[String.length]; [done|].
  intros H. apply bind_Some in H as ([[head1 m1] err] & Hbody & H).
  apply loop_body_cases in Hbody. destruct err as [r|].
  - injection H as <- <- ->. destruct Hbody as (_ & Hq & He).
    destruct (He eq_refl). exists prop. split_and!; [left|done..].
  - destruct (IH _ _ _ _ H) as (p & Hp & ?). exists p. split; [by right | done].
Qed.

Lemma register_success_inv reboot np m reboot' m' :
  reboot_mode_register reboot (Some np) m = Some (0, reboot', m') →
  ∃ head1,
    for_each_property np np (String.length PREFIX) [] m = Some (head1, m', None) ∧
    reboot' = {| head := head1; rb_lock := false; reboot_notifier := true |}.
Proof.
  unfold reboot_mode_register. intros H.
  apply bind_Some in H as ([[head1 m1] err] & Hloop & H).
  destruct err as [ret|].
  - apply bind_Some in H as (m2 & _ & [= -> _ _]).
    assert (true ∈ oom m ∨ True) as _ by (by right).
    exfalso.
    destruct (for_each_property_error _ _ _ _ _ _ _ Hloop) as [[E _]|[E _]];
      unfold EINVAL, ENOMEM in E; lia.
  - injection H as <- <-. by exists head1.
Qed.

Lemma register_table reboot np m reboot' m' :
  reboot_mode_register reboot (Some np) m = Some (0, reboot', m') →
  table reboot' = expected_table np np ∧
  Forall (fun p => qualifies p → ¬ missing_low np p → ¬ c_empty (mode_name p)) np.
Proof.
  intros H. destruct (register_success_inv _ _ _ _ _ H) as (head1 & Hloop & ->).
  destruct (for_each_property_result _ _ _ _ _ _ Hloop) as (new & Hh & Hnew & Hp).
  cbn in Hh. subst head1. by rewrite <- Hnew.
Qed.

(** Where an entry of the table built from [np] comes from. *)
Lemma expected_table_elem np e :
  e ∈ expected_table np np →
  ∃ p low, p ∈ np ∧ qualifies p ∧ mode e = mode_name p ∧
           of_property_read_u32 np (name p) = Some low ∧
           magic e = Z.lor (Z.shiftl (default 0 (of_property_read_u32_index np (name p) 1)) 32) low.
Proof.
  unfold expected_table. intros H.
  apply list_elem_of_omap in H as (p & Hp & He).
  apply list_elem_of_filter in Hp as [Hq Hp].
  unfold entry_of in He.
  destruct (of_property_read_u32 np (name p)) as [low|] eqn:Hlow; [|done].
  cbn in He. injection He as <-. by exists p, low.
Qed.

Lemma lor_halves high low :
  0 ≤ high < 2 ^ 32 → 0 ≤ low < 2 ^ 32 →
  Z.lor (Z.shiftl high 32) low = high * 2 ^ 32 + low.
Proof.
  intros Hh Hl. rewrite Z.shiftl_mul_pow2 by lia.
  assert (Z.land (high * 2 ^ 32) low = 0) as Hland.
  { apply Z.bits_inj'. intros i Hi. rewrite Z.land_spec, Z.bits_0.
    destruct (decide (i < 32)) as [Hlt|Hge].
    - rewrite Z.mul_pow2_bits_low by lia. done.
    - assert (Z.testbit low i = false) as ->; [|apply andb_false_r].
      destruct (decide (low = 0)) as [->|?]; [apply Z.bits_0|].
      apply Z.bits_above_log2; [lia|].
      apply Z.lt_le_trans with 32; [apply Z.log2_lt_pow2; lia | lia]. }
  rewrite <- Z.lxor_lor by done. symmetry. by apply Z.add_nocarry_lxor.
Qed.

Lemma default_high_range np propname :
  0 ≤ default 0 (of_property_read_u32_index np propname 1) < 2 ^ 32.
Proof.
  destruct (of_property_read_u32_index np propname 1) as [h|] eqn:E; cbn.
  - by eapply of_property_read_u32_index_range.
  - lia.
Qed.

Lemma qualifies_name p : qualifies p → name p = String.append PREFIX (mode_name p).
Proof.
  intros Hq. destruct (proj1 (qualifies_prefix p) Hq) as [n Hn].
  by rewrite (mode_name_prefix _ _ Hn).
Qed.

Lemma expected_table_same_name np e1 e2 :
  e1 ∈ expected_table np np → e2 ∈ expected_table np np →
  mode e1 = mode e2 → magic e1 = magic e2.
Proof.
  intros H1 H2 Hm.
  destruct (expected_table_elem _ _ H1) as (p1 & low1 & _ & Hq1 & Hn1 & Hl1 & ->).
  destruct (expected_table_elem _ _ H2) as (p2 & low2 & _ & Hq2 & Hn2 & Hl2 & ->).
  assert (name p1 = name p2) as Hname.
  { rewrite (qualifies_name _ Hq1), (qualifies_name _ Hq2). congruence. }
  rewrite Hname in *. congruence.
Qed.

Lemma register_runs reboot np m :
  ∃ ret reboot' m',
    reboot_mode_register reboot (Some np) m = Some (ret, reboot', m') ∧
    (ret = 0 ∨
     (ret = - EINVAL ∧ table reboot' = [] ∧
      ∃ p, p ∈ np ∧ qualifies p ∧ ¬ missing_low np p ∧ c_empty (mode_name p)) ∨
     (ret = - ENOMEM ∧ table reboot' = [] ∧ true ∈ oom m)).
Proof.
  unfold reboot_mode_register.
  destruct (for_each_property_owns (live m) np (String.length PREFIX) np [] m)
    as (head1 & m1 & err & Hloop & Hown).
  { unfold owns, owned. cbn. split_and!; [apply NoDup_nil_2| |set_solver].
    intros b Hb. by apply not_elem_of_nil in Hb. }
  rewrite Hloop. cbn -[String.length].
  destruct err as [ret|]; [|by eexists _, _, _; split; [done|left]].
  destruct (release_all_owns _ _ _ Hown) as (m2 & -> & _ & _). cbn.
  eexists _, _, _. split; [done|]. right.
  destruct (for_each_property_error _ _ _ _ _ _ _ Hloop) as [[-> _]|[-> Ht]].
  - left. split_and!; [done|done|]. by eapply for_each_property_einval.
  - right. done.
Qed.

Lemma get_reboot_mode_magic_member head (e : mode_info) :
  e ∈ head →
  (∀ e', e' ∈ head → mode e' = mode e → magic e' = magic e) →
  get_reboot_mode_magic head (Some (mode e)) = Some (magic e).
Proof.
  intros He Hsame.
  destruct (match_mode head (mode e)) as [m|] eqn:E.
  - destruct (match_mode_Some _ _ _ E) as (l1 & e' & l2 & -> & Hl1 & He' & <-).
    rewrite (get_reboot_mode_magic_exact l1 e' l2 (mode e));
      [|by apply Forall_forall|done].
    f_equal. apply Hsame; [|done]. apply elem_of_app. right. left.
  - exfalso. by apply (proj1 (match_mode_None _ _) E e).
Qed.

(** X8: whenever registration succeeds, whatever the allocator did on the
    way, the notifier is registered, the lock is released, the table is the
    one the node's properties stand for, no entry has an empty name, and
    every magic fits 64 bits. *)
Theorem register_entries (reboot : reboot_mode_driver) (np : list property)
  (m : slab) (reboot' : reboot_mode_driver) (m' : slab) :
  reboot_mode_register reboot (Some np) m = Some (0, reboot', m') →
  reboot_notifier reboot' = true ∧ rb_lock reboot' = false ∧
  table reboot' = expected_table np np ∧
  Forall (fun e => ¬ c_empty (mode e) ∧ 0 ≤ magic e < 2 ^ 64) (table reboot').
Proof.
  intros H. destruct (register_table _ _ _ _ _ H) as [Ht Hp].
  destruct (register_success_inv _ _ _ _ _ H) as (head1 & _ & Hr).
  split_and!; [by rewrite Hr | by rewrite Hr | done |].
  rewrite Ht. apply Forall_forall. intros e He.
  destruct (expected_table_elem _ _ He) as (p & low & Hin & Hq & Hn & Hl & Hm).
  rewrite Forall_forall in Hp. split.
  - rewrite Hn. apply Hp; [done|done|]. unfold missing_low. by rewrite Hl.
  - rewrite Hm.
    pose proof (default_high_range np (name p)) as Hh.
    pose proof (of_property_read_u32_index_range _ _ _ _ Hl) as Hlo.
    rewrite lor_halves by done.
    change (2 ^ 32) with 4294967296 in *.
    change (2 ^ 64) with 18446744073709551616. lia.
Qed.

Lemma register_entries_witness :
  ∃ reboot' m',
    reboot_mode_register fresh_driver (Some sample_node)
      (slab_of [false; false; false; false; true]) = Some (0, reboot', m') ∧
    reboot_notifier reboot' = true ∧ rb_lock reboot' = false ∧
    table reboot' = expected_table sample_node sample_node ∧
    Forall (fun e => ¬ c_empty (mode e) ∧ 0 ≤ magic e < 2 ^ 64) (table reboot').
Proof.
  eexists _, _. split.
  - by vm_compute.
  - refine (register_entries fresh_driver sample_node
              (slab_of [false; false; false; false; true]) _ _ _).
    by vm_compute.
Defined.

(** X9: every entry of a table that registration built comes from a
    property of the node: the property's name is the prefix followed by the
    entry's name, the low half of the magic is the first cell read under
    that name and the high half the second, 0 when there is none. *)
Theorem register_entry_origin (reboot : reboot_mode_driver) (np : list property)
  (m : slab) (reboot' : reboot_mode_driver) (m' : slab) (e : mode_info) :
  reboot_mode_register reboot (Some np) m = Some (0, reboot', m') →
  e ∈ table reboot' →
  ∃ p, p ∈ np ∧ name p = String.append PREFIX (mode e) ∧
       of_property_read_u32 np (name p) = Some (magic e mod 2 ^ 32) ∧
       default 0 (of_property_read_u32_index np (name p) 1) = magic e / 2 ^ 32.
Proof.
  intros H He. destruct (register_table _ _ _ _ _ H) as [Ht _].
  rewrite Ht in He.
  destruct (expected_table_elem _ _ He) as (p & low & Hin & Hq & Hn & Hl & Hm).
  pose proof (default_high_range np (name p)) as Hh.
  pose proof (of_property_read_u32_index_range _ _ _ _ Hl) as Hlo.
  rewrite lor_halves in Hm by done.
  exists p. split_and!.
  - done.
  - rewrite Hn. by apply qualifies_name.
  - rewrite Hl, Hm. f_equal.
    rewrite Z.add_comm, Z.mod_add by lia. symmetry. apply Z.mod_small. lia.
  - rewrite Hm, Z.add_comm, Z.div_add by lia.
    rewrite Z.div_small by lia. lia.
Qed.

Lemma register_entry_origin_witness :
  ∃ reboot' m',
    reboot_mode_register fresh_driver (Some sample_node) (slab_of [])
      = Some (0, reboot', m') ∧
    ∃ p, p ∈ sample_node ∧ name p = "mode-bootloader"%string ∧
         of_property_read_u32 sample_node (name p) = Some 2 ∧
         default 0 (of_property_read_u32_index sample_node (name p) 1) = 3.
Proof.
  eexists _, _. split.
  - by vm_compute.
  - refine (register_entry_origin fresh_driver sample_node (slab_of []) _ _
              {| mode := "bootloader"; magic := 0x300000002 |} _ _).
    + by vm_compute.
    + right. left.
Defined.

(** X10: the magic values are read under the property's name, so in a table
    that registration built two entries of one name have one magic, even
    when the node holds several properties of that name. *)
Theorem register_same_name (reboot : reboot_mode_driver) (np : list property)
  (m : slab) (reboot' : reboot_mode_driver) (m' : slab) (e1 e2 : mode_info) :
  reboot_mode_register reboot (Some np) m = Some (0, reboot', m') →
  e1 ∈ table reboot' → e2 ∈ table reboot' →
  mode e1 = mode e2 →
  magic e1 = magic e2.
Proof.
  intros H. destruct (register_table _ _ _ _ _ H) as [-> _].
  apply expected_table_same_name.
Qed.

Lemma register_same_name_witness :
  let np := [ prop_of "mode-a" [1]; prop_of "mode-a" [2] ] in
  ∃ reboot' m',
    reboot_mode_register fresh_driver (Some np) (slab_of []) = Some (0, reboot', m') ∧
    table reboot' = [ {| mode := "a"; magic := 1 |}; {| mode := "a"; magic := 1 |} ] ∧
    magic {| mode := "a"; magic := 1 |} = magic {| mode := "a"; magic := 1 |}.
Proof.
  cbv zeta. eexists _, _. split; [by vm_compute|]. split; [by vm_compute|].
  refine (register_same_name fresh_driver
            [ prop_of "mode-a" [1]; prop_of "mode-a" [2] ] (slab_of []) _ _
            {| mode := "a"; magic := 1 |} {| mode := "a"; magic := 1 |} _ _ _ _).
  - by vm_compute.
  - left.
  - right. left.
  - reflexivity.
Defined.

(** X11: registration followed by a reboot.  After a successful
    registration, the request that is the name of a property of the node
    without its prefix, the property's low value being readable, resolves
    to [(high << 32) | low] of that property, and the callback calls the
    write callback with it, once, unless it is 0. *)
Theorem register_then_lookup (reboot : reboot_mode_driver) (np : list property)
  (m : slab) (reboot' : reboot_mode_driver) (m' : slab) (p : property)
  (low mode_ : Z) :
  reboot_mode_register reboot (Some np) m = Some (0, reboot', m') →
  p ∈ np → qualifies p →
  of_property_read_u32 np (name p) = Some low →
  let magic_ :=
    Z.lor (Z.shiftl (default 0 (of_property_read_u32_index np (name p) 1)) 32) low in
  get_reboot_mode_magic (table reboot') (Some (mode_name p)) = Some magic_ ∧
  reboot_mode_notify reboot' mode_ (Some (mode_name p))
  = Some (NOTIFY_DONE,
          [MutexLock; MutexUnlock] ++
          (if decide (magic_ ≠ 0) then [CallWrite magic_] else [])).
Proof.
  intros H Hp Hq Hl magic_.
  assert (get_reboot_mode_magic (table reboot') (Some (mode_name p)) = Some magic_)
    as Hres.
  { destruct (register_table _ _ _ _ _ H) as [-> _].
    set (e := {| mode := mode_name p; magic := magic_ |}).
    assert (e ∈ expected_table np np) as He.
    { unfold expected_table. apply list_elem_of_omap. exists p. split.
      - by apply list_elem_of_filter.
      - unfold entry_of. by rewrite Hl. }
    change (mode_name p) with (mode e).
    rewrite (get_reboot_mode_magic_member _ e He); [done|].
    intros e' He' Hm. by apply (expected_table_same_name np). }
  split; [done|]. unfold reboot_mode_notify. by rewrite Hres.
Qed.

Lemma register_then_lookup_witness :
  ∃ reboot' m',
    reboot_mode_register fresh_driver (Some sample_node) (slab_of [])
      = Some (0, reboot', m') ∧
    get_reboot_mode_magic (table reboot') (Some "bootloader"%string)
    = Some 0x300000002 ∧
    reboot_mode_notify reboot' 0 (Some "bootloader"%string)
    = Some (NOTIFY_DONE, [MutexLock; MutexUnlock; CallWrite 0x300000002]).
Proof.
  eexists _, _. split.
  - by vm_compute.
  - refine (register_then_lookup fresh_driver sample_node (slab_of []) _ _
              {| name := "mode-bootloader"; name_rodata := true; value := [2; 3] |}
              2 0 _ _ _ _).
    + by vm_compute.
    + do 3 right. left.
    + compute_done.
    + by vm_compute.
Defined.

(** X12: when no allocation fails, registration fails only with [-EINVAL],
    and does so exactly when the node has a property with the prefix, a
    readable low value and nothing after the prefix.  A property named by
    the prefix alone whose low value cannot be read is skipped like any
    other without a value. *)
Theorem register_einval_iff (reboot : reboot_mode_driver) (np : list property)
  (m : slab) :
  never_fails m →
  ∃ ret reboot' m',
    reboot_mode_register reboot (Some np) m = Some (ret, reboot', m') ∧
    (ret = 0 ∨ ret = - EINVAL) ∧
    (ret = - EINVAL ↔
     ∃ p, p ∈ np ∧ qualifies p ∧ ¬ missing_low np p ∧ c_empty (mode_name p)).
Proof.
  intros Hm.
  assert (true ∉ oom m) as Hoom.
  { intros Hin. unfold never_fails in Hm. rewrite Forall_forall in Hm.
    by specialize (Hm _ Hin). }
  destruct (register_runs reboot np m) as (ret & reboot' & m' & Hrun & Hret).
  exists ret, reboot', m'. split; [done|].
  destruct Hret as [->|[(-> & _ & Hbad)|(-> & _ & Ht)]]; [| |done].
  - split; [by left|]. split; [done|].
    intros (p & Hp & Hq & Hlow & He). exfalso.
    destruct (register_table _ _ _ _ _ Hrun) as [_ Hall].
    rewrite Forall_forall in Hall. by apply (Hall p Hp Hq Hlow).
  - split; [by right|]. done.
Qed.

Lemma register_einval_iff_witness :
  let np := [ prop_of "mode-" []; prop_of "mode-recovery" [1] ] in
  never_fails (slab_of []) ∧
  outcome (reboot_mode_register fresh_driver (Some np) (slab_of []))
  = Some (0, [ {| mode := "recovery"; magic := 1 |} ], true, [1; 0]%nat) ∧
  ∃ ret reboot' m',
    reboot_mode_register fresh_driver (Some np) (slab_of []) = Some (ret, reboot', m') ∧
    (ret = 0 ∨ ret = - EINVAL) ∧
    (ret = - EINVAL ↔
     ∃ p, p ∈ np ∧ qualifies p ∧ ¬ missing_low np p ∧ c_empty (mode_name p)).
Proof.
  cbv zeta. split; [compute_done|]. split; [by vm_compute|].
  apply (register_einval_iff fresh_driver
           [ prop_of "mode-" []; prop_of "mode-recovery" [1] ] (slab_of [])).
  compute_done.
Defined.

(** X14: registration followed by unregistration.  After a successful
    registration, [reboot_mode_unregister] returns 0 without freeing
    anything twice, the list is empty, the notifier is unregistered, and
    the live blocks are those from before the registration. *)
Theorem register_then_unregister (reboot : reboot_mode_driver)
  (np : list property) (m : slab) (reboot' : reboot_mode_driver) (m' : slab) :
  reboot_mode_register reboot (Some np) m = Some (0, reboot', m') →
  ∃ m'',
    reboot_mode_unregister reboot' m'
    = Some (0, {| head := []; rb_lock := false; reboot_notifier := false |}, m'') ∧
    live m'' = live m.
Proof.
  intros H. destruct (register_success_inv _ _ _ _ _ H) as (head1 & Hloop & ->).
  destruct (for_each_property_owns (live m) np (String.length PREFIX) np [] m)
    as (head2 & m2 & err & Hloop2 & Hown).
  { unfold owns, owned. cbn. split_and!; [apply NoDup_nil_2| |set_solver].
    intros b Hb. by apply not_elem_of_nil in Hb. }
  rewrite Hloop in Hloop2. injection Hloop2 as <- <- <-.
  destruct (release_all_owns _ _ _ Hown) as (m'' & Hrel & Hlive & _).
  exists m''. unfold reboot_mode_unregister. cbn [head]. by rewrite Hrel.
Qed.

Lemma register_then_unregister_witness :
  ∃ reboot' m' m'',
    reboot_mode_register fresh_driver (Some sample_node) (slab_of [])
      = Some (0, reboot', m') ∧
    elements (live m') = [2; 1; 0]%nat ∧
    reboot_mode_unregister reboot' m'
    = Some (0, {| head := []; rb_lock := false; reboot_notifier := false |}, m'') ∧
    live m'' = live (slab_of []).
Proof.
  eexists _, _.
  destruct (register_then_unregister fresh_driver sample_node (slab_of [])
              _ _ ltac:(by vm_compute)) as [m'' H].
  exists m''. split; [reflexivity|]. split; [by vm_compute|]. exact H.
Defined.

(** X15: once [reboot_mode_unregister] has returned, the table is empty:
    every lookup returns 0, the callback, were it still invoked, calls the
    write callback for no request at all, and a second unregistration
    frees nothing and changes nothing. *)
Theorem unregister_leaves_nothing (reboot : reboot_mode_driver) (m : slab)
  (ret : Z) (reboot' : reboot_mode_driver) (m' : slab) :
  reboot_mode_unregister reboot m = Some (ret, reboot', m') →
  ret = 0 ∧ oom m' = oom m ∧
  (∀ mode_ cmd, reboot_mode_notify reboot' mode_ cmd
               = Some (NOTIFY_DONE, [MutexLock; MutexUnlock])) ∧
  reboot_mode_unregister reboot' m' = Some (0, reboot', m').
Proof.
  unfold reboot_mode_unregister. intros H.
  apply bind_Some in H as (m1 & Hrel & [= <- <- <-]).
  split_and!; [done| |intros mode_ cmd|done].
  - clear -Hrel. revert m Hrel.
    induction (head reboot) as [|n next IH]; intros m; cbn; [by intros [= ->]|].
    intros H. apply bind_Some in H as (ma & Ha & H).
    apply bind_Some in H as (mb & Hb & H).
    rewrite (IH _ H).
    unfold kfree in Hb. case_decide; [|done]. injection Hb as <-. cbn.
    destruct (mode_at n); cbn in Ha; [by injection Ha as <-|].
    unfold kfree in Ha. case_decide; [|done]. by injection Ha as <-.
  - unfold reboot_mode_notify, get_reboot_mode_magic.
    rewrite get_reboot_mode_magic_frame_eq. cbv zeta. unfold table. cbn.
    by case_decide.
Qed.

Lemma unregister_leaves_nothing_witness :
  let n := {| info_at := 4%nat; mode_at := Slab 7%nat;
              info := {| mode := "normal"; magic := 9 |} |} in
  let reboot := {| head := [n]; rb_lock := false; reboot_notifier := true |} in
  let m := {| live := {[ 4%nat; 7%nat; 9%nat ]}; oom := [true] |} in
  ∃ reboot' m',
    reboot_mode_unregister reboot m = Some (0, reboot', m') ∧
    elements (live m') = [9%nat] ∧
    reboot_mode_notify reboot' 0 None = Some (NOTIFY_DONE, [MutexLock; MutexUnlock]) ∧
    reboot_mode_unregister reboot' m' = Some (0, reboot', m').
Proof.
  cbv zeta. eexists _, _. split; [by vm_compute|]. split; [by vm_compute|].
  refine (let H := unregister_leaves_nothing
            {| head := [ {| info_at := 4%nat; mode_at := Slab 7%nat;
                            info := {| mode := "normal"; magic := 9 |} |} ];
               rb_lock := false; reboot_notifier := true |}
            {| live := {[ 4%nat; 7%nat; 9%nat ]}; oom := [true] |}
            0 _ _ _ in
          conj (proj1 (proj2 (proj2 H)) 0 None) (proj2 (proj2 (proj2 H)))).
  by vm_compute.
Defined.

(** ** Properties without the prefix *)

Lemma of_find_property_cons q np propname :
  of_find_property (q :: np) propname
  = if decide (strcmp (name q) propname = 0) then Some q
    else of_find_property np propname.
Proof.
  unfold of_find_property. cbn. case_decide; [done|].
  by destruct (list_find _ np) as [[i x]|].
Qed.

Lemma of_find_property_filter np p :
  qualifies p →
  of_find_property (filter qualifies np) (name p) = of_find_property np (name p).
Proof.
  intros Hq. induction np as [|q np IH]; [done|].
  rewrite filter_cons, (of_find_property_cons q np).
  destruct (decide (qualifies q)) as [Hqq|Hqq].
  - rewrite of_find_property_cons. by rewrite IH.
  - rewrite IH. rewrite decide_False; [done|].
    intros E. apply strcmp_eq in E. apply Hqq. unfold qualifies in *. by rewrite E.
Qed.

Lemma of_property_read_u32_index_filter np p index :
  qualifies p →
  of_property_read_u32_index (filter qualifies np) (name p) index
  = of_property_read_u32_index np (name p) index.
Proof.
  intros Hq. unfold of_property_read_u32_index. by rewrite of_find_property_filter.
Qed.

Lemma entry_of_filter np p :
  qualifies p → entry_of (filter qualifies np) p = entry_of np p.
Proof.
  intros Hq. unfold entry_of, of_property_read_u32.
  by rewrite !of_property_read_u32_index_filter.
Qed.

Lemma missing_low_filter np p :
  qualifies p → missing_low (filter qualifies np) p ↔ missing_low np p.
Proof.
  intros Hq. unfold missing_low, of_property_read_u32.
  by rewrite of_property_read_u32_index_filter.
Qed.

Lemma filter_qualifies_idemp (np : list property) :
  filter qualifies (filter qualifies np) = filter qualifies np.
Proof.
  induction np as [|q np IH]; [done|]. rewrite filter_cons.
  destruct (decide (qualifies q)); [|done].
  rewrite filter_cons, decide_True by done. by rewrite IH.
Qed.

Lemma omap_entry_of_filter np (l : list property) :
  Forall qualifies l →
  omap (entry_of (filter qualifies np)) l = omap (entry_of np) l.
Proof.
  induction 1 as [|q l Hq Hl IH]; [done|].
  cbn. rewrite (entry_of_filter _ _ Hq). by rewrite IH.
Qed.

Lemma expected_table_filter np :
  expected_table (filter qualifies np) (filter qualifies np) = expected_table np np.
Proof.
  unfold expected_table. rewrite filter_qualifies_idemp.
  apply omap_entry_of_filter.
  apply Forall_forall. intros x Hx. by apply list_elem_of_filter in Hx as [? _].
Qed.

(** X13: registration looks at no property without the prefix.  When no
    allocation fails, registering a node and registering the node stripped
    of its properties without the prefix return the same value and build
    the same table. *)
Theorem register_ignores_other_properties (reboot1 reboot2 : reboot_mode_driver)
  (np : list property) (m1 m2 : slab) :
  never_fails m1 → never_fails m2 →
  ∃ ret r1 m1' r2 m2',
    reboot_mode_register reboot1 (Some np) m1 = Some (ret, r1, m1') ∧
    reboot_mode_register reboot2 (Some (filter qualifies np)) m2 = Some (ret, r2, m2') ∧
    table r1 = table r2.
Proof.
  intros Hm1 Hm2.
  assert (∀ m, never_fails m → true ∉ oom m) as Hoom.
  { intros m Hm Hin. unfold never_fails in Hm. rewrite Forall_forall in Hm.
    by specialize (Hm _ Hin). }
  destruct (register_runs reboot1 np m1) as (ret1 & r1 & m1' & Hrun1 & Hret1).
  destruct (register_runs reboot2 (filter qualifies np) m2)
    as (ret2 & r2 & m2' & Hrun2 & Hret2).
  destruct Hret1 as [->|[(-> & Ht1 & Hbad1)|(-> & _ & Ht)]];
    [| |by apply Hoom in Ht];
    (destruct Hret2 as [->|[(-> & Ht2 & Hbad2)|(-> & _ & Ht)]];
     [| |by apply Hoom in Ht]).
  - exists 0, r1, m1', r2, m2'. split_and!; [done|done|].
    destruct (register_table _ _ _ _ _ Hrun1) as [-> _].
    destruct (register_table _ _ _ _ _ Hrun2) as [-> _].
    by rewrite expected_table_filter.
  - exfalso. destruct Hbad2 as (p & Hp & Hq & Hlow & He).
    apply list_elem_of_filter in Hp as [_ Hp].
    destruct (register_table _ _ _ _ _ Hrun1) as [_ Hall].
    rewrite Forall_forall in Hall. apply (Hall p Hp Hq); [|done].
    by rewrite <- missing_low_filter.
  - exfalso. destruct Hbad1 as (p & Hp & Hq & Hlow & He).
    destruct (register_table _ _ _ _ _ Hrun2) as [_ Hall].
    rewrite Forall_forall in Hall. apply (Hall p); [|done| |done].
    + by apply list_elem_of_filter.
    + by rewrite missing_low_filter.
  - exists (- EINVAL), r1, m1', r2, m2'. split_and!; [done|done|congruence].
Qed.

Lemma register_ignores_other_properties_witness :
  never_fails (slab_of []) ∧ never_fails (slab_of [false]) ∧
  filter qualifies sample_node
  = [ prop_of "mode-recovery" [1]; prop_of "mode-doc" [];
      {| name := "mode-bootloader"; name_rodata := true; value := [2; 3] |} ] ∧
  ∃ ret r1 m1' r2 m2',
    reboot_mode_register fresh_driver (Some sample_node) (slab_of [])
      = Some (ret, r1, m1') ∧
    reboot_mode_register fresh_driver (Some (filter qualifies sample_node))
      (slab_of [false]) = Some (ret, r2, m2') ∧
    table r1 = table r2.
Proof.
  split; [compute_done|]. split; [compute_done|]. split; [by vm_compute|].
  apply (register_ignores_other_properties fresh_driver fresh_driver sample_node
           (slab_of []) (slab_of [false])).
  - compute_done.
  - compute_done.
Defined.

(** * Managed registration *)

Lemma register_owns reboot of_node m :
  ∃ ret reboot' m',
    reboot_mode_register reboot of_node m = Some (ret, reboot', m') ∧
    (ret = 0 → owns (live m) (head reboot') m' ∧ ∃ np, of_node = Some np) ∧
    (ret ≠ 0 → live m' = live m ∧ (head reboot' = [] ∨ reboot' = reboot)).
Proof.
  destruct of_node as [np|].
  2:{ cbn. eexists _, _, _. split; [done|]. split.
      - intros E. unfold EINVAL in E. lia.
      - intros _. split; [done | by right]. }
  unfold reboot_mode_register.
  destruct (for_each_property_owns (live m) np (String.length PREFIX) np [] m)
    as (head1 & m1 & err & Hloop & Hown).
  { unfold owns, owned. cbn. split_and!; [apply NoDup_nil_2| |set_solver].
    intros b Hb. by apply not_elem_of_nil in Hb. }
  rewrite Hloop. cbn -[String.length].
  destruct err as [ret|].
  - destruct (release_all_owns _ _ _ Hown) as (m2 & -> & Hlive & _). cbn.
    eexists _, _, _. split; [done|]. split.
    + intros ->.
      destruct (for_each_property_error _ _ _ _ _ _ _ Hloop) as [[E _]|[E _]];
        unfold EINVAL, ENOMEM in E; lia.
    + intros _. split; [done | by left].
  - eexists _, _, _. split; [done|]. split; [|done].
    intros _. split; [done | by eauto].
Qed.

Lemma find_dr_tail (rest : list devres) dr (reboot : nat) :
  dr_release dr = devm_reboot_mode_release_fn → dr_data dr = reboot →
  reboot ≠ 0%nat →
  find_dr (dr :: rest) reboot = (0%nat, Some (dr, rest)).
Proof.
  intros Hrel Hdata Hnz. cbn. rewrite decide_False by (by intros ?).
  unfold devm_reboot_mode_match. rewrite Hdata, decide_False by done.
  by rewrite bool_decide_eq_true_2.
Qed.

Lemma find_dr_none (l : list devres) (reboot : nat) :
  Forall (fun dr => dr_release dr = devm_reboot_mode_release_fn →
                    dr_data dr ≠ reboot) l →
  ∃ warned, find_dr l reboot = (warned, None).
Proof.
  induction 1 as [|dr l Hdr Hl [w IH]]; cbn; [by eexists|].
  case_decide as Hrel.
  - rewrite IH. by eexists.
  - specialize (Hdr Hrel).
    unfold devm_reboot_mode_match. case_decide.
    + rewrite IH. by eexists.
    + rewrite bool_decide_eq_false_2 by done. rewrite IH. by eexists.
Qed.

Lemma deref_Some w reboot d : deref w reboot = Some d → reboot ≠ 0%nat ∧ drivers w !! reboot = Some d.
Proof. unfold deref. case_decide; [done|]. by intros ->. Qed.

(** X16: managed registration leaves nothing behind when it fails.  For a
    driver at a valid address it returns; when the value returned is not
    0, the device's list of resources and the live blocks are what they
    were, and the driver's list is empty or, the resource not having
    been allocated or the node being NULL, the driver is untouched. *)
Theorem devm_register_failure (reboot : nat) (w : device_state)
  (drv : reboot_mode_driver) (of_node : option (list property)) :
  deref w reboot = Some (drv, of_node) →
  ∃ rc w',
    devm_reboot_mode_register reboot w = Some (rc, w') ∧
    (rc ≠ 0 →
     devres_head w' = devres_head w ∧
     live (mem w') = live (mem w) ∧
     ∃ drv', drivers w' !! reboot = Some (drv', of_node) ∧
             (head drv' = [] ∨ drv' = drv)).
Proof.
  intros Hd. destruct (deref_Some _ _ _ Hd) as [Hnz Hlook].
  unfold devm_reboot_mode_register.
  destruct (kzalloc_cases (mem w)) as [(rest & _ & ->)|[-> _]].
  { eexists _, _. split; [done|]. intros _. cbn. split_and!; [done|done|].
    exists drv. split; [done | by right]. }
  rewrite Hd. cbn [mbind option_bind].
  set (m1 := {| live := _; oom := tail (oom (mem w)) |}).
  destruct (register_owns drv of_node m1) as (rc & drv' & m' & -> & _ & Hfail).
  cbn [mbind option_bind]. case_decide as Hrc.
  - destruct (Hfail Hrc) as [Hlive Hdrv].
    rewrite kfree_live by (rewrite Hlive; cbn; set_solver). cbn.
    eexists _, _. split; [done|]. intros _. cbn. split_and!; [done| |].
    + rewrite Hlive. cbn. apply alloc_free, fresh_live.
    + exists drv'. split; [apply lookup_insert_eq | done].
  - eexists _, _. split; [done|]. intros Hne. done.
Qed.

Lemma devm_register_failure_witness :
  let w := {| drivers := {[ 1%nat := (fresh_driver, Some [ prop_of "mode-a" [1]; prop_of "mode-" [2] ]) ]};
              devres_head := [];
              mem := {| live := {[ 0%nat ]}; oom := [] |} |} in
  (fun r => (r.1, view 1 r.2)) <$> devm_reboot_mode_register 1 w
  = Some (- EINVAL, ([], [0%nat], Some ([], false))) ∧
  ∃ rc w',
    devm_reboot_mode_register 1 w = Some (rc, w') ∧
    (rc ≠ 0 →
     devres_head w' = devres_head w ∧
     live (mem w') = live (mem w) ∧
     ∃ drv', drivers w' !! 1%nat
             = Some (drv', Some [ prop_of "mode-a" [1]; prop_of "mode-" [2] ]) ∧
             (head drv' = [] ∨ drv' = fresh_driver)).
Proof.
  cbv zeta. split; [by vm_compute|].
  apply (devm_register_failure 1
           {| drivers := {[ 1%nat := (fresh_driver, Some [ prop_of "mode-a" [1]; prop_of "mode-" [2] ]) ]};
              devres_head := [];
              mem := {| live := {[ 0%nat ]}; oom := [] |} |}
           fresh_driver (Some [ prop_of "mode-a" [1]; prop_of "mode-" [2] ])).
  by vm_compute.
Defined.

(** X17: managed registration followed by managed unregistration.  After
    [devm_reboot_mode_register] has returned 0,
    [devm_reboot_mode_unregister] finds the resource, raises no warning,
    unregisters the driver and frees the resource: the device's list of
    resources and the live blocks are those from before the registration,
    and the driver's list is empty and its notifier unregistered. *)
Theorem devm_register_then_unregister (reboot : nat) (w w' : device_state) :
  devm_reboot_mode_register reboot w = Some (0, w') →
  ∃ w'' of_node,
    devm_reboot_mode_unregister reboot w' = Some (0%nat, w'') ∧
    devres_head w'' = devres_head w ∧
    live (mem w'') = live (mem w) ∧
    drivers w'' !! reboot
    = Some ({| head := []; rb_lock := false; reboot_notifier := false |}, of_node).
Proof.
  unfold devm_reboot_mode_register.
  destruct (kzalloc_cases (mem w)) as [(rest & _ & ->)|[-> _]].
  { intros [=]. }
  set (dr := fresh (live (mem w))).
  set (m1 := {| live := _; oom := tail (oom (mem w)) |}).
  intros H. apply bind_Some in H as ([drv of_node] & Hd & H).
  destruct (deref_Some _ _ _ Hd) as [Hnz Hlook].
  destruct (register_owns drv of_node m1) as (rc & drv' & m' & Hreg & Hok & _).
  rewrite Hreg in H. cbn [mbind option_bind] in H.
  case_decide as Hrc.
  { apply bind_Some in H as (m2 & _ & [= E _]). done. }
  subst rc. injection H as <-.
  destruct (Hok eq_refl) as [Hown _].
  unfold devm_reboot_mode_unregister, devres_release. cbn [devres_head].
  rewrite reverse_snoc, find_dr_tail by done.
  rewrite reverse_involutive.
  unfold devm_reboot_mode_release, deref. cbn [dr_data drivers mem devres_head].
  rewrite decide_False by done. rewrite lookup_insert_eq. cbn [mbind option_bind].
  unfold reboot_mode_unregister.
  destruct (release_all_owns _ _ _ Hown) as (m2 & -> & Hlive & _).
  cbn [mbind option_bind mem dr_at].
  rewrite kfree_live by (rewrite Hlive; cbn; set_solver).
  cbn [mbind option_bind]. rewrite decide_False by (by intros ?).
  eexists _, of_node. split; [done|]. cbn. split_and!; [done| |].
  - rewrite Hlive. cbn. apply alloc_free, fresh_live.
  - apply lookup_insert_eq.
Qed.

Lemma devm_register_then_unregister_witness :
  ∃ w',
    devm_reboot_mode_register 1 sample_device = Some (0, w') ∧
    view 1 w'
    = ([ {| dr_at := 0%nat; dr_release := other_release 3; dr_data := 5%nat |};
         {| dr_at := 1%nat; dr_release := devm_reboot_mode_release_fn; dr_data := 1%nat |} ],
       [4; 2; 3; 1; 0]%nat,
       Some ([ {| mode := "recovery"; magic := 1 |};
               {| mode := "bootloader"; magic := 0x300000002 |} ], true)) ∧
    ∃ w'' of_node,
      devm_reboot_mode_unregister 1 w' = Some (0%nat, w'') ∧
      devres_head w'' = devres_head sample_device ∧
      live (mem w'') = live (mem sample_device) ∧
      drivers w'' !! 1%nat
      = Some ({| head := []; rb_lock := false; reboot_notifier := false |}, of_node).
Proof.
  eexists. split; [by vm_compute|]. split; [by vm_compute|].
  refine (devm_register_then_unregister 1 sample_device _ _).
  by vm_compute.
Defined.

(** X18: managed unregistration of a driver that has no resource on the
    device (never registered, or unregistered already) finds nothing: it
    raises a warning and changes nothing. *)
Theorem devm_unregister_unknown (reboot : nat) (w : device_state) :
  Forall (fun dr => dr_release dr = devm_reboot_mode_release_fn →
                    dr_data dr ≠ reboot) (devres_head w) →
  ∃ warned,
    devm_reboot_mode_unregister reboot w = Some (S warned, w).
Proof.
  intros H. unfold devm_reboot_mode_unregister, devres_release.
  destruct (find_dr_none (reverse (devres_head w)) reboot) as [warned ->].
  { apply Forall_forall. intros dr Hdr. rewrite Forall_forall in H.
    apply H. by apply elem_of_reverse. }
  cbn. exists warned. done.
Qed.

Lemma devm_unregister_unknown_witness :
  ∃ warned, devm_reboot_mode_unregister 1 sample_device = Some (S warned, sample_device).
Proof.
  apply (devm_unregister_unknown 1 sample_device). compute_done.
Defined.

(** * Resolution on registered tables, and the failures of registration *)

(** C1: for every table that registration built, containing an entry named
    "re-covery" with magic 0x2A and no entry whose name equals the request
    verbatim, each of the requests "re/covery", "re covery" and "re,covery"
    resolves to 0x2A: the first scan finds nothing, every space, comma and
    forward slash of the request becomes a hyphen, and the second scan, in
    order, stops at the first entry named "re-covery", whose magic is that
    of every entry of this name. *)
Theorem resolve_separators_registered (reboot : reboot_mode_driver)
  (np : list property) (m : slab) (reboot' : reboot_mode_driver) (m' : slab)
  (e : mode_info) (cmd : string) :
  reboot_mode_register reboot (Some np) m = Some (0, reboot', m') →
  e ∈ table reboot' →
  mode e = "re-covery"%string → magic e = 0x2A →
  cmd ∈ ["re/covery"; "re covery"; "re,covery"]%string →
  no_entry_named (table reboot') cmd →
  match_mode (table reboot') cmd = None ∧
  hyphenate cmd = "re-covery"%string ∧
  get_reboot_mode_magic (table reboot') (Some cmd) = Some 0x2A.
Proof.
  intros Hreg He Hn Hm Hcmd Hno.
  assert (hyphenate cmd = "re-covery"%string ∧ cstr cmd ∧
          (String.length cmd < sizeof_cmd_)%nat) as (Hh & Hc & Hlen).
  { repeat (apply elem_of_cons in Hcmd as [->|Hcmd]).
    1-3: split_and!; [by vm_compute | compute_done | compute_done].
    by apply not_elem_of_nil in Hcmd. }
  split; [by apply match_mode_no_entry|]. split; [done|].
  destruct (register_table _ _ _ _ _ Hreg) as [Ht _].
  destruct (match_mode (table reboot') "re-covery") as [m0|] eqn:E.
  2:{ exfalso. by apply (proj1 (match_mode_None _ _) E e). }
  destruct (match_mode_Some _ _ _ E) as (l1 & e' & l2 & Hsplit & Hl1 & He' & _).
  assert (magic e' = magic e) as Hsame.
  { apply (expected_table_same_name np).
    - rewrite <- Ht, Hsplit. apply elem_of_app. right. left.
    - by rewrite <- Ht.
    - congruence. }
  rewrite Hsplit in *. rewrite <- Hm, <- Hsame.
  apply resolve_normalized; try done; rewrite Hh; [by apply Forall_forall | done].
Qed.

Lemma resolve_separators_registered_witness :
  let np := [ prop_of "mode-normal" [7]; prop_of "mode-re-covery" [0x2A] ] in
  ∃ reboot' m',
    reboot_mode_register fresh_driver (Some np) (slab_of []) = Some (0, reboot', m') ∧
    table reboot' = [ {| mode := "normal"; magic := 7 |};
                      {| mode := "re-covery"; magic := 0x2A |} ] ∧
    match_mode (table reboot') "re covery" = None ∧
    hyphenate "re covery" = "re-covery"%string ∧
    get_reboot_mode_magic (table reboot') (Some "re covery"%string) = Some 0x2A.
Proof.
  cbv zeta. eexists _, _. split; [by vm_compute|]. split; [by vm_compute|].
  refine (resolve_separators_registered fresh_driver
            [ prop_of "mode-normal" [7]; prop_of "mode-re-covery" [0x2A] ]
            (slab_of []) _ _ {| mode := "re-covery"; magic := 0x2A |}
            "re covery" _ _ _ _ _ _).
  - by vm_compute.
  - right. left.
  - reflexivity.
  - reflexivity.
  - compute_done.
  - compute_done.
Defined.

(** ** The allocation requests a registration makes *)

Lemma kfree_oom b m m' : kfree b m = Some m' → oom m' = oom m.
Proof. unfold kfree. case_decide; [|done]. by intros [= <-]. Qed.

Lemma kfree_const_oom x m m' : kfree_const x m = Some m' → oom m' = oom m.
Proof. destruct x; cbn; [by intros [= <-] | apply kfree_oom]. Qed.

(** What a request takes from the schedule of failures. *)
Lemma kzalloc_served m :
  ∃ served, oom m = served ++ oom (kzalloc m).2 ∧
            (true ∈ served ↔ (kzalloc m).1 = None).
Proof.
  unfold kzalloc. destruct (oom m) as [|[] rest]; cbn.
  - exists []. split; [done|]. split; [|done]. intros H. by apply not_elem_of_nil in H.
  - exists [true]. split; [done|]. split; [done|]. intros _. left.
  - exists [false]. split; [done|]. split; [|done].
    intros H. apply list_elem_of_singleton in H. done.
Qed.

Lemma loop_body_served np len prop head m head' m' err :
  loop_body np len prop head m = Some (head', m', err) →
  ∃ served, oom m = served ++ oom m' ∧
            (true ∈ served ↔ err = Some (- ENOMEM)).
Proof.
  unfold loop_body. case_decide.
  { intros [= <- <- <-]. exists []. split; [done|].
    split; [|done]. intros H'. by apply not_elem_of_nil in H'. }
  destruct (kzalloc_served m) as (s1 & Hs1 & Ht1).
  destruct (kzalloc m) as [[info|] m1]; cbn [fst snd] in *.
  2:{ intros [= <- <- <-]. exists s1. split; [done|]. split; [done|].
      intros _. by apply Ht1. }
  assert (true ∉ s1) as Hn1 by (intros Hin; by apply Ht1 in Hin).
  destruct (of_property_read_u32 np (name prop)) as [magic_arg1|].
  2:{ intros H'. apply bind_Some in H' as (m2 & Hm2 & [= <- <- <-]).
      exists s1. rewrite (kfree_oom _ _ _ Hm2). split; [done|]. split; [done|done]. }
  unfold kstrdup_const. destruct (name_rodata prop).
  - case_decide.
    + intros H'. apply bind_Some in H' as (m2 & Hm2 & H').
      apply bind_Some in H' as (m3 & Hm3 & [= <- <- <-]).
      exists s1. rewrite (kfree_oom _ _ _ Hm3), (kfree_const_oom _ _ _ Hm2).
      split; [done|]. split; [done|]. intros [=].
    + intros [= <- <- <-]. exists s1. split; [done|]. split; [done|done].
  - destruct (kzalloc_served m1) as (s2 & Hs2 & Ht2).
    destruct (kzalloc m1) as [[b2|] m2]; cbn [fst snd fmap option_fmap option_map] in *.
    2:{ intros H'. apply bind_Some in H' as (m3 & Hm3 & [= <- <- <-]).
        exists (s1 ++ s2). rewrite (kfree_oom _ _ _ Hm3), Hs1, Hs2, (assoc_L (++)).
        split; [done|]. split; [done|]. intros _.
        apply elem_of_app. right. by apply Ht2. }
    assert (true ∉ s2) as Hn2 by (intros Hin; by apply Ht2 in Hin).
    assert (true ∉ s1 ++ s2) as Hn.
    { intros Hin. apply elem_of_app in Hin as [?|?]; done. }
    case_decide.
    + intros H'. apply bind_Some in H' as (m3 & Hm3 & H').
      apply bind_Some in H' as (m4 & Hm4 & [= <- <- <-]).
      exists (s1 ++ s2).
      rewrite (kfree_oom _ _ _ Hm4), (kfree_const_oom _ _ _ Hm3), Hs1, Hs2, (assoc_L (++)).
      split; [done|]. split; [done|]. intros [=].
    + intros [= <- <- <-]. exists (s1 ++ s2). rewrite Hs1, Hs2, (assoc_L (++)).
      split; [done|]. split; [done|done].
Qed.

Lemma for_each_property_served np len props : ∀ head m head' m' err,
  for_each_property np props len head m = Some (head', m', err) →
  ∃ served, oom m = served ++ oom m' ∧
            (true ∈ served ↔ err = Some (- ENOMEM)).
Proof.
  induction props as [|prop rest IH]; intros head m head' m' err; cbn.
  - intros [= <- <- <-]. exists []. split; [done|].
    split; [|done]. intros H. by apply not_elem_of_nil in H.
  - intros H. apply bind_Some in H as ([[head1 m1] err1] & Hbody & H).
    destruct (loop_body_served _ _ _ _ _ _ _ _ Hbody) as (s1 & Hs1 & Ht1).
    destruct err1 as [r|].
    + injection H as <- <- <-. by exists s1.
    + destruct (IH _ _ _ _ _ H) as (s2 & Hs2 & Ht2).
      exists (s1 ++ s2). rewrite Hs1, Hs2, (assoc_L (++)). split; [done|].
      rewrite elem_of_app, <- Ht2. split; [|by right].
      intros [Hin|Hin]; [|done]. by apply Ht1 in Hin.
Qed.

(** C4, as stated, fails in its account of the failures: a property named
    by the prefix alone, its name after the prefix empty, does not make
    registration fail when it has no value; it is skipped, and registration
    returns 0. *)
Lemma register_prefix_only_counterexample :
  let p := prop_of "mode-" [] in
  qualifies p ∧ c_empty (mode_name p) ∧ mode_name p = EmptyString ∧
  outcome (reboot_mode_register fresh_driver (Some [p]) (slab_of []))
  = Some (0, [], true, []).
Proof.
  cbv zeta. split_and!; [compute_done | compute_done | by vm_compute | by vm_compute].
Qed.

(** C4 (amended): registration is all or nothing.  For every device node,
    every state of the allocator and every schedule of allocation
    failures, [reboot_mode_register] returns, and
    - it returns [-ENOMEM] exactly when one of the allocation requests it
      made failed;
    - it returns [-EINVAL] exactly when none did and the node has a
      property with the prefix, a readable low value and an empty name
      after the prefix (such a property without a readable low value is
      skipped);
    - it returns 0 exactly when neither is the case.
    Whenever the value returned is not 0, the list is empty, every block
    allocated on the way has been freed, once, and the notifier has not
    been registered. *)
Theorem register_all_or_nothing (reboot : reboot_mode_driver)
  (np : list property) (m : slab) :
  ∃ ret reboot' m' served,
    reboot_mode_register reboot (Some np) m = Some (ret, reboot', m') ∧
    oom m = served ++ oom m' ∧
    (ret = - ENOMEM ↔ true ∈ served) ∧
    (ret = - EINVAL ↔
     ((true ∉ served) ∧
      ∃ p, p ∈ np ∧ qualifies p ∧ ¬ missing_low np p ∧ c_empty (mode_name p))) ∧
    (ret = 0 ↔
     ((true ∉ served) ∧
      ¬ ∃ p, p ∈ np ∧ qualifies p ∧ ¬ missing_low np p ∧ c_empty (mode_name p))) ∧
    (ret ≠ 0 →
     head reboot' = [] ∧ table reboot' = [] ∧
     live m' = live m ∧
     reboot_notifier reboot' = reboot_notifier reboot).
Proof.
  unfold reboot_mode_register.
  destruct (for_each_property_owns (live m) np (String.length PREFIX) np [] m
              (owns_initial [] m eq_refl)) as (head1 & m1 & err & Hloop & Hown).
  destruct (for_each_property_served _ _ _ _ _ _ _ _ Hloop) as (served & Hs & Ht).
  rewrite Hloop. cbn -[String.length].
  destruct err as [ret|].
  - destruct (release_all_owns _ _ _ Hown) as (m2 & -> & Hlive & Hoom).
    cbn. exists ret, {| head := []; rb_lock := false;
                        reboot_notifier := reboot_notifier reboot |}, m2, served.
    split; [done|]. rewrite Hoom. split; [done|].
    assert (ret = - EINVAL → ∃ p, p ∈ np ∧ qualifies p ∧ ¬ missing_low np p ∧
                                  c_empty (mode_name p)) as Hbad.
    { intros ->. by eapply for_each_property_einval. }
    destruct (for_each_property_error _ _ _ _ _ _ _ Hloop) as [[-> _]|[-> _]].
    + assert (true ∉ served) as Hn.
      { intros Hin. apply Ht in Hin. injection Hin as E.
        unfold EINVAL, ENOMEM in E. lia. }
      split_and!.
      * split; [intros E; unfold EINVAL, ENOMEM in E; lia | done].
      * split; [by auto | done].
      * split; [intros E; unfold EINVAL in E; lia|].
        intros [_ Hnone]. exfalso. by apply Hnone, Hbad.
      * done.
    + assert (true ∈ served) as Hin by (by apply Ht).
      split_and!.
      * done.
      * split; [intros E; unfold EINVAL, ENOMEM in E; lia | by intros [? _]].
      * split; [intros E; unfold ENOMEM in E; lia | by intros [? _]].
      * done.
  - exists 0, {| head := head1; rb_lock := false; reboot_notifier := true |}, m1, served.
    split; [done|]. split; [done|].
    assert (true ∉ served) as Hn by (intros Hin; by apply Ht in Hin).
    destruct (for_each_property_result _ _ _ _ _ _ Hloop) as (_ & _ & _ & Hall).
    assert (¬ ∃ p, p ∈ np ∧ qualifies p ∧ ¬ missing_low np p ∧ c_empty (mode_name p))
      as Hnone.
    { intros (p & Hp & Hq & Hlow & He). rewrite Forall_forall in Hall.
      by apply (Hall p Hp Hq Hlow). }
    split_and!.
    + split; [intros E; unfold ENOMEM in E; lia | done].
    + split; [intros E; unfold EINVAL in E; lia | by intros [_ ?]].
    + done.
    + done.
Qed.
